(** * c-map: a string-keyed chained hash map (map.c / map.h)

    Shallow embedding of [map.c].

    - A C string is the list of bytes found at the pointer; every string
      routine ([strcmp], [strcpy], [hash]) stops at the first NUL byte, the
      end of the list standing for the terminator.
    - [unsigned int] is a [Z] reduced modulo [2^32]; [int] is a [Z] whose
      overflow is undefined behaviour.
    - A [struct cell *] is the list of the cells met by following [next];
      [NULL] is the empty list.
    - [struct map] is a record; the functions of [map.c] are written in a
      state monad over it whose outcome is a return, an abnormal termination
      ([assert]/[exit]) or undefined behaviour.
    - [malloc] and [calloc] are assumed to succeed. *)

From Stdlib Require Import ZArith Lia.
From Stdlib Require Import Strings.Byte.
From stdpp Require Import base tactics option list numbers relations.
From stdpp Require Import strings.

Local Open Scope Z_scope.

(** ** Machine integers *)

Definition UINT_RANGE : Z := 2 ^ 32.
Definition INT_MAX : Z := 2 ^ 31 - 1.
Definition INT_MIN : Z := - 2 ^ 31.

(** Conversion of an integer to [unsigned int]. *)
Definition to_uint (z : Z) : Z := z mod UINT_RANGE.

(** Conversion of an [unsigned int] to [int] (two's complement). *)
Definition to_int (u : Z) : Z := if u <=? INT_MAX then u else u - UINT_RANGE.

Definition in_int (z : Z) : bool := (INT_MIN <=? z) && (z <=? INT_MAX).

(** ** C strings *)

Definition is_nul (c : byte) : bool := Byte.eqb c x00.

(** [(unsigned char) c] *)
Definition uchar (c : byte) : Z := Z.of_N (Byte.to_N c).

(** The characters of a string, up to its terminator: what [strcpy] stores. *)
Fixpoint strcpy (s : list byte) : list byte :=
  match s with
  | [] => []
  | c :: s' => if is_nul c then [] else c :: strcpy s'
  end.

(** [strcmp(a, b) == 0] *)
Fixpoint streq (a b : list byte) : bool :=
  match a, b with
  | [], [] => true
  | [], d :: _ => is_nul d
  | c :: _, [] => is_nul c
  | c :: a', d :: b' =>
      if is_nul c then is_nul d
      else if Byte.eqb c d then streq a' b' else false
  end.

(** ** [hash] *)

(** The [while] loop of [hash], started with accumulator [h]: it runs until
    the byte under [key] is NUL. *)
Fixpoint hash_loop (h : Z) (key : list byte) : Z :=
  match key with
  | [] => h
  | c :: key' =>
      if is_nul c then h
      else
        let h := (h * 31) mod UINT_RANGE in
        let h := Z.lxor h (uchar c) in
        hash_loop h key'
  end.

Definition hash (key : list byte) : Z := hash_loop (to_uint (-1)) key.

(** The hash as the specification words it: a left fold over the bytes
    before the terminator, from the all-ones seed. *)
Definition hash_step (h : Z) (c : byte) : Z :=
  Z.lxor (h * 31) (uchar c) mod 2 ^ 32.

Definition hash_spec (key : list byte) : Z :=
  fold_left hash_step (strcpy key) (2 ^ 32 - 1).

(** ** Data *)

(** [struct cell], without its [next] field: a chain is the list of cells
    reached through [next]. [value] is a [void *], an address. *)
Record cell : Type := Cell { key : list byte; value : Z }.

Abbreviation chain := (list cell) (only parsing).

(** [struct map]. [elems] is the array of bucket heads. *)
Record map : Type := Map { elems : list chain; capacity : Z; size : Z }.

(** A [const char *] returned by [map_first] or [map_next] points at the
    [key] field of a cell: it is the [struct cell *] of that cell, [NULL]
    when the list is empty. *)
Abbreviation keyptr := (list cell) (only parsing).

(** ** Outcomes and the state monad *)

Inductive outcome (A : Type) : Type :=
| Ret (a : A) (m : map)   (* the call returns [a], the map being [m] *)
| Abort (m : map)         (* [assert(key_found)] fails, or [exit(1)] *)
| Undef.                  (* undefined behaviour *)

Arguments Ret {A} a m.
Arguments Abort {A} m.
Arguments Undef {A}.

Definition M (A : Type) : Type := map → outcome A.

#[global] Instance M_ret : MRet M := λ A a m, Ret a m.

#[global] Instance M_bind : MBind M := λ A B f c m,
  match c m with
  | Ret a m' => f a m'
  | Abort m' => Abort m'
  | Undef => Undef
  end.

Definition undef {A} : M A := λ _, Undef.
Definition abort {A} : M A := λ m, Abort m.

Definition load_elems : M (list chain) := λ m, Ret (elems m) m.
Definition load_capacity : M Z := λ m, Ret (capacity m) m.
Definition load_size : M Z := λ m, Ret (size m) m.

Definition store_elems (a : list chain) : M unit :=
  λ m, Ret tt (Map a (capacity m) (size m)).
Definition store_capacity (n : Z) : M unit :=
  λ m, Ret tt (Map (elems m) n (size m)).
Definition store_size (n : Z) : M unit :=
  λ m, Ret tt (Map (elems m) (capacity m) n).

(** [a[i]] for an array [a]: undefined outside of it. *)
Definition array_get (a : list chain) (i : Z) : M chain :=
  if decide (0 ≤ i) then
    match a !! Z.to_nat i with
    | Some c => mret c
    | None => undef
    end
  else undef.

(** [m->elems[i]] read. *)
Definition load_elem (i : Z) : M chain :=
  a ← load_elems; array_get a i.

(** [m->elems[i] = c] *)
Definition store_elem (i : Z) (c : chain) : M unit :=
  a ← load_elems;
  if decide (0 ≤ i < Z.of_nat (length a)) then
    store_elems (<[Z.to_nat i := c]> a)
  else undef.

(** The result of an [int] operation: undefined when it overflows. *)
Definition int_result (z : Z) : M Z :=
  if in_int z then mret z else undef.

(** [hash(key) % m->capacity], assigned to an [int]: the capacity is
    converted to [unsigned int]; a remainder by zero is undefined. *)
Definition bucket_of (key : list byte) : M Z :=
  cap ← load_capacity;
  if decide (to_uint cap = 0) then undef
  else mret (to_int (hash key mod to_uint cap)).

(** ** The functions of [map.c] *)

(** The header comes from [malloc(sizeof (map))], the size of a pointer
    and not of [struct map]: a defect of memory layout, which a record does
    not show. The fields are those the code initialises. *)
Definition map_create : map := Map (replicate 1 []) 1 0.

Definition map_size : M Z := load_size.

(** The [for] loop of [map_contains] over the chain [curr]. *)
Fixpoint contains_loop (k : list byte) (curr : chain) : bool :=
  match curr with
  | [] => false
  | c :: next => if streq (key c) k then true else contains_loop k next
  end.

Definition map_contains (k : list byte) : M bool :=
  b ← bucket_of k;
  curr ← load_elem b;
  mret (contains_loop k curr).

(** The [for] loop of [map_get]: the value of the first cell with the key,
    [None] when the loop runs off the chain. *)
Fixpoint get_loop (k : list byte) (curr : chain) : option Z :=
  match curr with
  | [] => None
  | c :: next => if streq (key c) k then Some (value c) else get_loop k next
  end.

Definition map_get (k : list byte) : M Z :=
  b ← bucket_of k;
  curr ← load_elem b;
  match get_loop k curr with
  | Some v => mret v
  | None => abort
  end.

(** The [for] loop of [map_set]: the chain with the value of the first cell
    with the key replaced, [None] when the loop runs off the chain. *)
Fixpoint set_loop (k : list byte) (v : Z) (curr : chain) : option chain :=
  match curr with
  | [] => None
  | c :: next =>
      if streq (key c) k then Some (Cell (key c) v :: next)
      else match set_loop k v next with
           | Some next' => Some (c :: next')
           | None => None
           end
  end.

(** The inner [while] loop of [extend_if_necessary]: each cell of [curr] is
    pushed on the bucket its key hashes to under the current capacity. *)
Fixpoint move_chain (curr : chain) : M unit :=
  match curr with
  | [] => mret tt
  | c :: next =>
      b ← bucket_of (key c);
      head ← load_elem b;
      store_elem b (c :: head);;
      move_chain next
  end.

(** The outer [for] loop of [extend_if_necessary], with [n] iterations left
    from index [i] over the old array. *)
Fixpoint rehash (n : nat) (i : Z) (old : list chain) : M unit :=
  match n with
  | O => mret tt
  | S n' =>
      curr ← array_get old i;
      move_chain curr;;
      rehash n' (i + 1) old
  end.

Definition extend_if_necessary : M unit :=
  n ← load_size;
  cap ← load_capacity;
  if decide (n = cap) then
    old ← load_elems;
    cap2 ← int_result (cap * 2);
    store_capacity cap2;;
    store_elems (replicate (Z.to_nat cap2) []);;
    rehash (Z.to_nat cap) 0 old
  else mret tt.

Definition map_set (k : list byte) (v : Z) : M unit :=
  b ← bucket_of k;
  curr ← load_elem b;
  match set_loop k v curr with
  | Some curr' => store_elem b curr'
  | None =>
      extend_if_necessary;;
      b ← bucket_of k;
      head ← load_elem b;
      store_elem b (Cell (strcpy k) v :: head);;
      n ← load_size;
      n' ← int_result (n + 1);
      store_size n'
  end.

(** The [for] loop of [map_remove]: the value of the first cell with the key
    and the chain bridged across it. *)
Fixpoint remove_loop (k : list byte) (curr : chain) : option (Z * chain) :=
  match curr with
  | [] => None
  | c :: next =>
      if streq (key c) k then Some (value c, next)
      else match remove_loop k next with
           | Some (v, next') => Some (v, c :: next')
           | None => None
           end
  end.

Definition map_remove (k : list byte) : M Z :=
  b ← bucket_of k;
  curr ← load_elem b;
  match remove_loop k curr with
  | Some (v, curr') =>
      store_elem b curr';;
      n ← load_size;
      n' ← int_result (n - 1);
      store_size n';;
      mret v
  | None => abort
  end.

(** The [for] loop shared by [map_first] and [map_next]: [n] iterations
    left from index [i]; the first non-empty bucket, or [NULL]. *)
Fixpoint scan (n : nat) (i : Z) : M keyptr :=
  match n with
  | O => mret []
  | S n' =>
      curr ← load_elem i;
      match curr with
      | [] => scan n' (i + 1)
      | _ :: _ => mret curr
      end
  end.

Definition scan_from (i : Z) : M keyptr :=
  cap ← load_capacity;
  scan (Z.to_nat (cap - i)) i.

Definition map_first : M keyptr := scan_from 0.

Definition map_next (p : keyptr) : M keyptr :=
  match p with
  | [] => undef
  | c :: next =>
      match next with
      | _ :: _ => mret next
      | [] =>
          b ← bucket_of (key c);
          scan_from (b + 1)
      end
  end.

(** The string under a key pointer. *)
Definition key_at (p : keyptr) : list byte :=
  match p with
  | [] => []
  | c :: _ => key c
  end.

(** The iteration of map.h,
    [for (key = map_first(m); key != NULL; key = map_next(m, key))],
    collecting the keys met; [fuel] bounds the number of iterations. *)
Fixpoint walk_from (fuel : nat) (p : keyptr) : M (option (list (list byte))) :=
  match p with
  | [] => mret (Some [])
  | _ :: _ =>
      match fuel with
      | O => mret None
      | S fuel' =>
          q ← map_next p;
          r ← walk_from fuel' q;
          mret (cons (key_at p) <$> r)
      end
  end.

Definition walk (fuel : nat) : M (option (list (list byte))) :=
  p ← map_first; walk_from fuel p.

(** ** Representation invariant and reachable maps *)

#[global] Instance byte_eq_decision : EqDecision byte := Byte.byte_eq_dec.

(** Every cell of the map, bucket after bucket, each chain from its head. *)
Definition all_cells (m : map) : list cell := concat (elems m).

Definition all_keys (m : map) : list (list byte) := key <$> all_cells m.

(** The keys held by each bucket, in chain order. *)
Definition key_table (m : map) : list (list (list byte)) :=
  (λ l : chain, key <$> l) <$> elems m.

(** The index of the bucket a key belongs to, and that bucket. *)
Definition slot (m : map) (k : list byte) : nat :=
  Z.to_nat (hash k mod capacity m).

Definition bucket (m : map) (k : list byte) : chain :=
  default [] (elems m !! slot m k).

(** The array part of the invariant: a capacity that is a positive [int]
    and the length of the bucket array. *)
Record map_shape (m : map) : Prop := {
  shape_pos : 0 < capacity m;
  shape_int : capacity m ≤ INT_MAX;
  shape_length : Z.of_nat (length (elems m)) = capacity m
}.

(** Every cell of the array [a] lies in the bucket its key hashes to
    under the capacity [cap]. *)
Definition placed (cap : Z) (a : list chain) : Prop :=
  ∀ (i : nat) (curr : chain) (c : cell),
    a !! i = Some curr → c ∈ curr → hash (key c) mod cap = Z.of_nat i.

Record map_inv (m : map) : Prop := {
  inv_shape : map_shape m;
  inv_pow2 : ∃ n : nat, capacity m = 2 ^ Z.of_nat n;
  inv_size : size m = Z.of_nat (length (all_cells m));
  inv_load : size m ≤ capacity m;
  inv_bucket : placed (capacity m) (elems m);
  inv_key : ∀ c : cell, c ∈ all_cells m → strcpy (key c) = key c;
  inv_nodup : NoDup (all_keys m)
}.

(** The invariant as a check that computes. *)
Definition bucket_ok (cap : Z) (i : nat) (curr : chain) : bool :=
  forallb (λ c, (hash (key c) mod cap =? Z.of_nat i)
                && bool_decide (strcpy (key c) = key c)) curr.

Fixpoint buckets_ok (cap : Z) (i : nat) (a : list chain) : bool :=
  match a with
  | [] => true
  | curr :: a' => bucket_ok cap i curr && buckets_ok cap (S i) a'
  end.

Definition map_invb (m : map) : bool :=
  (0 <? capacity m) && (capacity m <=? INT_MAX)
  && (capacity m =? 2 ^ Z.log2 (capacity m))
  && (Z.of_nat (length (elems m)) =? capacity m)
  && (size m =? Z.of_nat (length (all_cells m)))
  && (size m <=? capacity m)
  && buckets_ok (capacity m) 0 (elems m)
  && bool_decide (NoDup (all_keys m)).

(** One completed call of [map_set] or [map_remove]. *)
Inductive step (m m' : map) : Prop :=
| step_set (k : list byte) (v : Z) : map_set k v m = Ret tt m' → step m m'
| step_remove (k : list byte) (v : Z) : map_remove k m = Ret v m' → step m m'.

(** The maps obtained from [map_create] by completed calls. *)
Definition reachable (m : map) : Prop := rtc step map_create m.

(** ** The bucket array rebuilt by [extend_if_necessary], as a function *)

Definition push (cap : Z) (a : list chain) (c : cell) : list chain :=
  let b := Z.to_nat (hash (key c) mod cap) in
  <[b := c :: default [] (a !! b)]> a.

Definition pushes (cap : Z) (a : list chain) (l : list cell) : list chain :=
  foldl (push cap) a l.

(** The map after a growth: doubled capacity, every cell pushed on a fresh
    array. *)
Definition grown (m : map) : map :=
  let cap2 := capacity m * 2 in
  Map (pushes cap2 (replicate (Z.to_nat cap2) []) (all_cells m)) cap2 (size m).

(** The map after [extend_if_necessary]. *)
Definition extended (m : map) : map :=
  if decide (size m = capacity m) then grown m else m.

(** The map after a new cell is linked at the head of its bucket. *)
Definition linked (m : map) (k : list byte) (v : Z) : map :=
  Map (<[slot m k := Cell (strcpy k) v :: bucket m k]> (elems m))
      (capacity m) (size m + 1).

(** Doubling the capacity, when [extend_if_necessary] has to, stays within
    [int]. *)
Definition can_grow (m : map) : Prop :=
  size m = capacity m → capacity m * 2 ≤ INT_MAX.

(** [map_set(m, k, v)] stays within [int]: the key is present, or the
    capacity can grow. *)
Definition can_set (m : map) (k : list byte) : Prop :=
  map_contains k m = Ret false m → can_grow m.

(** The keys [a], [aa], [aaa], ... *)
Definition key_of (i : nat) : list byte := replicate (S i) "a"%byte.

(** The map after [map_set] of the first [n] of these keys, each with the
    value 0, on a fresh map. *)
Fixpoint filled (n : nat) : map :=
  match n with
  | O => map_create
  | S n' =>
      match map_set (key_of n') 0 (filled n') with
      | Ret _ m' => m'
      | _ => filled n'
      end
  end.

(** The map with 2^30 entries, and a key it does not hold. *)
Definition full_map : map := filled (Z.to_nat (2 ^ 30)).

Definition fresh_key : list byte := ["b"%byte].

(** The first non-empty chain of an array, [NULL] when there is none: what
    the scanning loop of [map_first] and [map_next] stops at. *)
Fixpoint first_chain (a : list chain) : chain :=
  match a with
  | [] => []
  | [] :: a' => first_chain a'
  | (_ :: _) as l :: _ => l
  end.

(** What a caller can observe of the key [k] is in [m'] what it was in
    [m]: the answer of [map_contains], and the value or the failure of
    [map_get]. *)
Definition reads_same (k : list byte) (m m' : map) : Prop :=
  (∀ b, map_contains k m = Ret b m → map_contains k m' = Ret b m')
  ∧ (∀ v, map_get k m = Ret v m → map_get k m' = Ret v m')
  ∧ (map_get k m = Abort m → map_get k m' = Abort m').

(** * The shell of [cli.c]

    Standard input is the list of the bytes still to come, with its
    end-of-file indicator; standard output is the list of the calls made to
    [printf], each with its format as the source writes it and its
    arguments. [strdup] is assumed to succeed; [free] is recorded for value
    handles only, and [do_cleanup], which only releases memory through
    [map_destroy], leaves no trace. The output of a call that does not
    return is not modelled. *)

Definition MAX_LINE : nat := 80.

Record stdin : Type := Stdin { pending : list byte; at_eof : bool }.

(** [getchar()]: the next byte, or [EOF] with the indicator set. *)
Definition getchar (s : stdin) : option byte * stdin :=
  match pending s with
  | [] => (None, Stdin [] true)
  | c :: rest => (Some c, Stdin rest (at_eof s))
  end.

(** [char ch = getchar()]: [EOF], which is -1, becomes the byte 0xff. *)
Definition to_char (r : option byte) : byte :=
  match r with
  | Some c => c
  | None => xff
  end.

(** [ch == '\n' || ch == '\0'] *)
Definition ends_line (ch : byte) : bool := Byte.eqb ch x0a || is_nul ch.

Inductive arg : Type :=
| AStr (s : list byte)   (* [%s]: a string of the shell *)
| AVal (p : Z)           (* [%s]: a value handle kept in the map *)
| AInt (n : Z).          (* [%d] *)

Inductive event : Type :=
| Printf (fmt : string) (args : list arg)
| Free (p : Z).          (* [free(value)] *)

(** The first [for] loop of [read_cmd], with [n] iterations left: the
    characters stored in [dest] before the terminator, or [None] when the
    loop ends without one. *)
Fixpoint read_chars (n : nat) (s : stdin) : option (list byte) * stdin :=
  match n with
  | O => (None, s)
  | S n' =>
      let (r, s1) := getchar s in
      let ch := to_char r in
      if ends_line ch then (Some [], s1)
      else
        let (l, s2) := read_chars n' s1 in
        (cons ch <$> l, s2)
  end.

(** The second [for] loop of [read_cmd]: the rest of the line is
    consumed. *)
Fixpoint drain (fuel : nat) (s : stdin) : option stdin :=
  match fuel with
  | O => None
  | S fuel' =>
      let (r, s1) := getchar s in
      if ends_line (to_char r) then Some s1 else drain fuel' s1
  end.

(** What [read_cmd] returns: [true] with the line in [dest], or [false]. *)
Inductive read_result : Type :=
| Line (dest : list byte)
| Closed.

(** [read_cmd]; [None] when the loops are still running after [fuel]
    steps. *)
Fixpoint read_cmd (fuel : nat) (s : stdin)
    : option (read_result * stdin * list event) :=
  match fuel with
  | O => None
  | S fuel' =>
      if at_eof s then Some (Closed, s, [])
      else
        match read_chars (S MAX_LINE) s with
        | (Some dest, s1) => Some (Line dest, s1, [Printf "> " []])
        | (None, s1) =>
            s2 ← drain fuel' s1;
            '(r, s3, out) ← read_cmd fuel' s2;
            Some (r, s3,
                  Printf "> " []
                  :: Printf "    error; line too long (> 80)\n" [] :: out)
        end
  end.

(** [strtok] with the delimiter [" "]: leading spaces are skipped, the
    token runs to the next space or to the terminator; the second component
    is where the next call resumes. *)
Definition is_space (c : byte) : bool := Byte.eqb c " "%byte.

Fixpoint skip_spaces (s : list byte) : list byte :=
  match s with
  | [] => []
  | c :: s' => if is_space c then skip_spaces s' else s
  end.

Fixpoint take_token (s : list byte) : list byte * list byte :=
  match s with
  | [] => ([], [])
  | c :: s' =>
      if is_nul c then ([], [])
      else if is_space c then ([], s')
      else let (t, rest) := take_token s' in (c :: t, rest)
  end.

Definition strtok (s : list byte) : option (list byte) * list byte :=
  match skip_spaces s with
  | [] => (None, [])
  | c :: s' =>
      if is_nul c then (None, [])
      else let (t, rest) := take_token (c :: s') in (Some t, rest)
  end.

(** How a call of [run_cmd] ends. *)
Inductive status : Type :=
| Running (m : option map)   (* it returns; the static [m], [NULL] or a map *)
| Exited (code : Z)          (* [exit(code)] *)
| Crashed                    (* a function of [map.c] fails its assertion *)
| Undefined                  (* undefined behaviour *)
| Stuck.                     (* a loop still runs when the fuel is spent *)

(** A string literal of the source. *)
Definition lit (s : string) : list byte := String.list_byte_of_string s.

Definition ensure_exists (st : option map) : bool * list event :=
  match st with
  | Some _ => (true, [])
  | None =>
      (false,
       [Printf "    error; use `init` first to initialize a new empty map\n" []])
  end.

Definition parse (rest cmd : list byte) : bool * list event :=
  match strtok rest with
  | (Some _, _) => (false, [Printf "    error; use format `%s`\n" [AStr cmd]])
  | (None, _) => (true, [])
  end.

Definition parse_s (rest cmd : list byte) : option (list byte) * list event :=
  let err := [Printf "    error; use format `%s %%[^ ]`\n" [AStr cmd]] in
  match strtok rest with
  | (None, _) => (None, err)
  | (Some token, rest') =>
      match strtok rest' with
      | (Some _, _) => (None, err)
      | (None, _) => (Some (strcpy token), [])
      end
  end.

Definition parse_ss (rest cmd : list byte)
    : option (list byte * list byte) * list event :=
  let err := [Printf "    error; use format `%s %%[^ ] %%[^ ]`\n" [AStr cmd]] in
  let (token1, rest1) := strtok rest in
  let (token2, rest2) := strtok rest1 in
  match token1, token2 with
  | Some t1, Some t2 =>
      match strtok rest2 with
      | (Some _, _) => (None, err)
      | (None, _) => (Some (strcpy t1, strcpy t2), [])
      end
  | _, _ => (None, err)
  end.

(** The result of a call into [map.c], passed on to the rest of the
    command. *)
Definition call {A} (o : outcome A) (k : A → map → list event * status)
    : list event * status :=
  match o with
  | Ret a m' => k a m'
  | Abort _ => ([], Crashed)
  | Undef => ([], Undefined)
  end.

(** The [for] loop of the [ls] command from the key [p] on, each turn
    printing one entry. *)
Fixpoint ls_rest (fuel : nat) (p : keyptr) : M (option (list event)) :=
  match p with
  | [] => mret (Some [])
  | _ :: _ =>
      match fuel with
      | O => mret None
      | S fuel' =>
          v ← map_get (key_at p);
          q ← map_next p;
          r ← ls_rest fuel' q;
          mret (cons (Printf ", %s:%s" [AStr (key_at p); AVal v]) <$> r)
      end
  end.

(** What the [ls] command prints between the braces. *)
Definition ls_entries (fuel : nat) : M (option (list event)) :=
  p ← map_first;
  match p with
  | [] => mret (Some [])
  | _ :: _ =>
      v ← map_get (key_at p);
      q ← map_next p;
      r ← ls_rest fuel q;
      mret (cons (Printf "%s:%s" [AStr (key_at p); AVal v]) <$> r)
  end.

(** The entries as [ls] prints them: the first bare, the others after a
    comma. *)
Definition ls_events (cells : list cell) : list event :=
  match cells with
  | [] => []
  | c :: l =>
      Printf "%s:%s" [AStr (key c); AVal (value c)]
      :: ((λ c, Printf ", %s:%s" [AStr (key c); AVal (value c)]) <$> l)
  end.

Definition help_text : list event :=
  [Printf "    help               List available commands\n" [];
   Printf "    exit/quit/q        Exit map shell\n" [];
   Printf "    init               Initialize new empty map\n" [];
   Printf "    size               Get current map size\n" [];
   Printf "    ls/print/dump      Get all map contents\n" [];
   Printf "    contains <key>     Check if map contains <key>\n" [];
   Printf "    set <key> <value>  Set <value> for <key>\n" [];
   Printf "    get <key>          Get the value for <key>\n" [];
   Printf "    remove <i>         Remove the value for <key>\n" []].

Definition KEY_NOT_FOUND : event := Printf "    error; key not found\n" [].

(** The commands that take no argument and need a map. *)
Definition cmd_size (st : option map) : list event * status :=
  match st with
  | None => ((ensure_exists st).2, Running st)
  | Some m =>
      call (map_size m) (λ n m',
        ([Printf "    |m| = %d\n" [AInt n]], Running (Some m')))
  end.

Definition cmd_ls (fuel : nat) (st : option map) : list event * status :=
  match st with
  | None => ((ensure_exists st).2, Running st)
  | Some m =>
      call (ls_entries fuel m) (λ r m',
        match r with
        | Some out =>
            (Printf "    m = {" [] :: out ++ [Printf "}\n" []],
             Running (Some m'))
        | None => ([], Stuck)
        end)
  end.

Definition cmd_contains (k : list byte) (st : option map)
    : list event * status :=
  match st with
  | None => ((ensure_exists st).2, Running st)
  | Some m =>
      call (map_contains k m) (λ b m',
        ([if b then Printf "    true\n" [] else Printf "    false\n" []],
         Running (Some m')))
  end.

Definition cmd_set (k v : list byte) (valp : Z) (st : option map)
    : list event * status :=
  match st with
  | None => ((ensure_exists st).2, Running st)
  | Some m =>
      call (map_set k valp m) (λ _ m',
        ([Printf "    m[%s] = %s\n" [AStr k; AVal valp]], Running (Some m')))
  end.

Definition cmd_get (k : list byte) (st : option map) : list event * status :=
  match st with
  | None => ((ensure_exists st).2, Running st)
  | Some m =>
      call (map_contains k m) (λ b m1,
        if negb b then ([KEY_NOT_FOUND], Running (Some m1))
        else
          call (map_get k m1) (λ value m2,
            ([Printf "    m[%s] = %s\n" [AStr k; AVal value]],
             Running (Some m2))))
  end.

Definition cmd_remove (k : list byte) (st : option map)
    : list event * status :=
  match st with
  | None => ((ensure_exists st).2, Running st)
  | Some m =>
      call (map_contains k m) (λ b m1,
        if negb b then ([KEY_NOT_FOUND], Running (Some m1))
        else
          call (map_remove k m1) (λ value m2,
            ([Printf "    # m[%s] = %s\n" [AStr k; AVal value]; Free value],
             Running (Some m2))))
  end.

(** [run_cmd(line)], the static [m] being [st]; [valp] is the address
    [strdup] returns for the value of a [set] command, [fuel] bounds the
    loop of [ls]. *)
Definition run_cmd (fuel : nat) (valp : Z) (line : list byte)
    (st : option map) : list event * status :=
  match strtok line with
  | (None, _) => ([], Running st)
  | (Some cmd, rest) =>
      if streq cmd (lit "help") then
        match parse rest cmd with
        | (false, out) => (out, Running st)
        | (true, _) => (help_text, Running st)
        end
      else if streq cmd (lit "exit") || streq cmd (lit "quit")
              || streq cmd (lit "q") then
        match parse rest cmd with
        | (false, out) => (out, Running st)
        | (true, _) => ([], Exited 0)
        end
      else if streq cmd (lit "init") then
        match parse rest cmd with
        | (false, out) => (out, Running st)
        | (true, _) => ([Printf "    m = {}\n" []], Running (Some map_create))
        end
      else if streq cmd (lit "size") then
        match parse rest cmd with
        | (false, out) => (out, Running st)
        | (true, _) => cmd_size st
        end
      else if streq cmd (lit "ls") || streq cmd (lit "dump")
              || streq cmd (lit "print") then
        match parse rest cmd with
        | (false, out) => (out, Running st)
        | (true, _) => cmd_ls fuel st
        end
      else if streq cmd (lit "contains") then
        match parse_s rest cmd with
        | (None, out) => (out, Running st)
        | (Some k, _) => cmd_contains k st
        end
      else if streq cmd (lit "set") then
        match parse_ss rest cmd with
        | (None, out) => (out, Running st)
        | (Some (k, v), _) => cmd_set k v valp st
        end
      else if streq cmd (lit "get") then
        match parse_s rest cmd with
        | (None, out) => (out, Running st)
        | (Some k, _) => cmd_get k st
        end
      else if streq cmd (lit "remove") then
        match parse_s rest cmd with
        | (None, out) => (out, Running st)
        | (Some k, _) => cmd_remove k st
        end
      else ([Printf "    error; unknown command (%s)\n" [AStr cmd]], Running st)
  end.





(** * Proofs *)

(** ** Strings *)

Lemma byte_eqb_true c d : Byte.eqb c d = true ↔ c = d.
Proof. split; [apply Byte.byte_dec_bl | apply Byte.byte_dec_lb]. Qed.

Lemma byte_eqb_refl c : Byte.eqb c c = true.
Proof. by apply byte_eqb_true. Qed.

Lemma strcpy_idemp s : strcpy (strcpy s) = strcpy s.
Proof.
  induction s as [|c s IH]; simpl; [done|].
  destruct (is_nul c) eqn:E; simpl; [done|]. by rewrite E, IH.
Qed.

Lemma streq_strcpy a b : streq a b = true ↔ strcpy a = strcpy b.
Proof.
  revert b. induction a as [|c a IH]; intros [|d b]; simpl.
  - done.
  - destruct (is_nul d); split; done.
  - destruct (is_nul c); split; done.
  - destruct (is_nul c) eqn:Ec.
    + destruct (is_nul d); split; done.
    + destruct (Byte.eqb c d) eqn:Ecd.
      * apply byte_eqb_true in Ecd as <-. rewrite Ec, IH.
        split; [by intros -> | by intros [= ?]].
      * split; [done|]. destruct (is_nul d); [done|].
        intros [= -> _]. by rewrite byte_eqb_refl in Ecd.
Qed.

Lemma streq_strcpy_r k : streq (strcpy k) k = true.
Proof. apply streq_strcpy, strcpy_idemp. Qed.

Lemma streq_false a b : streq a b = false ↔ strcpy a ≠ strcpy b.
Proof.
  rewrite <- streq_strcpy. destruct (streq a b); split; congruence.
Qed.

(** ** [hash] *)

Lemma uchar_range c : 0 ≤ uchar c < 256.
Proof. unfold uchar. pose proof (Byte.to_N_bounded c). lia. Qed.

Lemma hash_loop_strcpy h s : hash_loop h (strcpy s) = hash_loop h s.
Proof.
  revert h. induction s as [|c s IH]; intros h; simpl; [done|].
  destruct (is_nul c) eqn:E; simpl; [done|]. by rewrite E, IH.
Qed.

Lemma hash_strcpy s : hash (strcpy s) = hash s.
Proof. apply hash_loop_strcpy. Qed.

Lemma hash_streq a b : streq a b = true → hash a = hash b.
Proof.
  intros H%streq_strcpy. by rewrite <- (hash_strcpy a), H, hash_strcpy.
Qed.

(** The C statements [hash *= 31; hash ^= c] are one step of the fold. *)
Lemma hash_step_wrap h c :
  Z.lxor ((h * 31) mod UINT_RANGE) (uchar c) = hash_step h c.
Proof.
  unfold hash_step, UINT_RANGE.
  pose proof (uchar_range c) as Hc.
  rewrite <- (Z.mod_small (uchar c) (2 ^ 32)) at 1 by lia.
  rewrite <- !Z.land_ones by lia.
  apply Z.bits_inj'. intros n _.
  rewrite !Z.land_spec, !Z.lxor_spec, !Z.land_spec.
  by destruct (Z.testbit (h * 31) n), (Z.testbit (uchar c) n),
    (Z.testbit (Z.ones 32) n).
Qed.

Lemma hash_loop_fold h s : hash_loop h s = fold_left hash_step (strcpy s) h.
Proof.
  revert h. induction s as [|c s IH]; intros h; simpl; [done|].
  destruct (is_nul c); simpl; [done|]. by rewrite IH, hash_step_wrap.
Qed.

(** C9. [hash(key)] is the left fold over the bytes of [key] before its NUL
    terminator, in order, from the seed [2^32 - 1], of the step
    [h := ((h * 31) XOR byte) mod 2^32]; the empty string hashes to
    [2^32 - 1]; two strings that [strcmp] finds equal hash alike. *)
Theorem hash_fold_spec :
  (∀ k, hash k = hash_spec k)
  ∧ hash [] = 2 ^ 32 - 1
  ∧ (∀ k k', streq k k' = true → hash k = hash k').
Proof.
  split; [|split].
  - intros k. unfold hash, hash_spec. by rewrite hash_loop_fold.
  - reflexivity.
  - apply hash_streq.
Qed.
(** ** The monad and its primitives *)

Lemma bind_Ret {A B} (c : M A) (f : A → M B) m a m' :
  c m = Ret a m' → (c ≫= f) m = f a m'.
Proof. intros H. unfold mbind, M_bind. by rewrite H. Qed.

(** One step through [x ← c; ...] when [c] returns. *)
Tactic Notation "mstep" tactic3(tac) := erewrite bind_Ret by tac.

Lemma int_max_eq : INT_MAX = 2147483647.
Proof. reflexivity. Qed.

Lemma slot_lt m k : map_shape m → (slot m k < length (elems m))%nat.
Proof.
  intros [Hpos _ Hlen]. unfold slot.
  pose proof (Z.mod_pos_bound (hash k) (capacity m) Hpos). lia.
Qed.

Lemma bucket_lookup m k :
  map_shape m → elems m !! slot m k = Some (bucket m k).
Proof.
  intros Hs. unfold bucket. pose proof (slot_lt m k Hs) as Hlt.
  destruct (elems m !! slot m k) eqn:E; [done|].
  apply lookup_ge_None in E. lia.
Qed.

Lemma bucket_of_shape m k :
  map_shape m → bucket_of k m = Ret (Z.of_nat (slot m k)) m.
Proof.
  intros [Hpos Hint Hlen]. unfold bucket_of, slot.
  rewrite int_max_eq in Hint.
  mstep reflexivity.
  assert (to_uint (capacity m) = capacity m) as ->.
  { unfold to_uint, UINT_RANGE. apply Z.mod_small. lia. }
  pose proof (Z.mod_pos_bound (hash k) (capacity m) Hpos).
  destruct (decide _); [lia|].
  unfold to_int. rewrite int_max_eq.
  destruct (Z.leb_spec (hash k mod capacity m) 2147483647); [|lia].
  by rewrite Z2Nat.id by lia.
Qed.

Lemma load_elem_nat (i : nat) m :
  load_elem (Z.of_nat i) m =
  match elems m !! i with Some c => Ret c m | None => Undef end.
Proof.
  unfold load_elem, array_get. mstep reflexivity.
  destruct (decide _); [|lia]. rewrite Nat2Z.id. by destruct (_ !! _).
Qed.

(** The first two statements of most functions of [map.c]: the bucket index
    of the key, then the head of that bucket. *)
Ltac enter_bucket :=
  mstep (by apply bucket_of_shape);
  mstep (by rewrite load_elem_nat, bucket_lookup).

Lemma store_elem_nat (i : nat) c m :
  (i < length (elems m))%nat →
  store_elem (Z.of_nat i) c m = Ret tt (Map (<[i := c]> (elems m)) (capacity m) (size m)).
Proof.
  intros Hi. unfold store_elem. mstep reflexivity.
  destruct (decide _); [|lia]. by rewrite Nat2Z.id.
Qed.

(** ** The read-only functions, as equations *)

Lemma map_contains_eq m k :
  map_shape m → map_contains k m = Ret (contains_loop k (bucket m k)) m.
Proof.
  intros Hs. unfold map_contains.
  mstep (by apply bucket_of_shape).
  erewrite bind_Ret; [done|]. by rewrite load_elem_nat, bucket_lookup.
Qed.

Lemma map_get_eq m k :
  map_shape m →
  map_get k m =
  match get_loop k (bucket m k) with Some v => Ret v m | None => Abort m end.
Proof.
  intros Hs. unfold map_get.
  enter_bucket.
  by destruct (get_loop _ _).
Qed.

(** ** [extend_if_necessary] *)

Lemma push_length cap a c : length (push cap a c) = length a.
Proof. unfold push. by rewrite length_insert. Qed.

Lemma pushes_length cap l a : length (pushes cap a l) = length a.
Proof.
  revert a. induction l as [|c l IH]; intros a; simpl; [done|].
  unfold pushes in *. simpl. by rewrite IH, push_length.
Qed.

Lemma pushes_app cap a l1 l2 :
  pushes cap a (l1 ++ l2) = pushes cap (pushes cap a l1) l2.
Proof. apply foldl_app. Qed.

Lemma map_shape_elems m a :
  map_shape m → length a = length (elems m) →
  map_shape (Map a (capacity m) (size m)).
Proof. intros [? ? ?] Ha. split; simpl; [done|done|]. by rewrite Ha. Qed.

Lemma move_chain_eq curr m :
  map_shape m →
  move_chain curr m =
  Ret tt (Map (pushes (capacity m) (elems m) curr) (capacity m) (size m)).
Proof.
  revert m. induction curr as [|c next IH]; intros m Hs; simpl.
  - by destruct m.
  - mstep (by apply bucket_of_shape).
    mstep (by rewrite load_elem_nat, bucket_lookup).
    mstep (by apply store_elem_nat, slot_lt).
    rewrite IH by (apply map_shape_elems; [done|by rewrite length_insert]).
    reflexivity.
Qed.

Lemma rehash_eq n (i : nat) old m :
  map_shape m → (i + n)%nat = length old →
  rehash n (Z.of_nat i) old m =
  Ret tt (Map (pushes (capacity m) (elems m) (concat (drop i old)))
              (capacity m) (size m)).
Proof.
  revert i m. induction n as [|n IH]; intros i m Hs Hlen; simpl.
  - rewrite drop_ge by lia. by destruct m.
  - destruct (lookup_lt_is_Some_2 old i) as [curr Hcurr]; [lia|].
    erewrite bind_Ret; last first.
    { unfold array_get. destruct (decide _); [|lia].
      by rewrite Nat2Z.id, Hcurr. }
    mstep (by apply move_chain_eq).
    replace (Z.of_nat i + 1) with (Z.of_nat (S i)) by lia.
    rewrite IH; simpl.
    + rewrite (drop_S _ _ _ Hcurr). simpl. by rewrite pushes_app.
    + apply map_shape_elems; [done|]. by rewrite pushes_length.
    + lia.
Qed.

Lemma in_int_true z : INT_MIN ≤ z ≤ INT_MAX → in_int z = true.
Proof. unfold in_int. intros ?. apply andb_true_intro. split; lia. Qed.

Lemma extend_eq m :
  map_shape m → (size m = capacity m → capacity m * 2 ≤ INT_MAX) →
  extend_if_necessary m =
  Ret tt (extended m).
Proof.
  intros Hs Hov. unfold extend_if_necessary, extended.
  mstep reflexivity. mstep reflexivity.
  destruct (decide _) as [Heq|]; [|done].
  mstep reflexivity.
  destruct Hs as [Hpos Hint Hlen].
  erewrite bind_Ret; last first.
  { unfold int_result. rewrite in_int_true; [done|].
    specialize (Hov Heq). unfold INT_MIN. lia. }
  mstep reflexivity. mstep reflexivity.
  rewrite (rehash_eq _ 0%nat); simpl.
  - done.
  - split; simpl; [lia|by apply Hov|]. rewrite length_replicate. lia.
  - lia.
Qed.

Lemma grown_shape m :
  map_shape m → capacity m * 2 ≤ INT_MAX → map_shape (grown m).
Proof.
  intros [Hpos Hint Hlen] Hov. split; simpl; [lia|done|].
  rewrite pushes_length, length_replicate. lia.
Qed.

Lemma extended_shape m :
  map_shape m → (size m = capacity m → capacity m * 2 ≤ INT_MAX) →
  map_shape (extended m).
Proof.
  intros Hs Hov. unfold extended. destruct (decide _); [|done].
  apply grown_shape; auto.
Qed.

Lemma extended_size m : size (extended m) = size m.
Proof. unfold extended. by destruct (decide _). Qed.

(** ** [map_set] and [map_remove], as equations *)

Lemma map_set_eq m k v :
  map_shape m →
  (size m = capacity m → capacity m * 2 ≤ INT_MAX) →
  INT_MIN ≤ size m + 1 ≤ INT_MAX →
  map_set k v m =
  match set_loop k v (bucket m k) with
  | Some curr' =>
      Ret tt (Map (<[slot m k := curr']> (elems m)) (capacity m) (size m))
  | None => Ret tt (linked (extended m) k v)
  end.
Proof.
  intros Hs Hov Hsz. unfold map_set.
  enter_bucket.
  destruct (set_loop _ _ _) as [curr'|].
  - by apply store_elem_nat, slot_lt.
  - pose proof (extended_shape m Hs Hov) as Hs'.
    mstep (by apply extend_eq).
    enter_bucket.
    mstep (by apply store_elem_nat, slot_lt).
    mstep reflexivity. simpl.
    erewrite bind_Ret; last first.
    { unfold int_result. rewrite extended_size, in_int_true; done. }
    unfold store_size, linked. simpl. by rewrite extended_size.
Qed.

Lemma map_set_found m k v curr' :
  map_shape m → set_loop k v (bucket m k) = Some curr' →
  map_set k v m =
  Ret tt (Map (<[slot m k := curr']> (elems m)) (capacity m) (size m)).
Proof.
  intros Hs Hset. unfold map_set.
  enter_bucket.
  rewrite Hset. by apply store_elem_nat, slot_lt.
Qed.

Lemma map_remove_eq m k :
  map_shape m →
  map_remove k m =
  match remove_loop k (bucket m k) with
  | Some (v, curr') =>
      if in_int (size m - 1) then
        Ret v (Map (<[slot m k := curr']> (elems m)) (capacity m) (size m - 1))
      else Undef
  | None => Abort m
  end.
Proof.
  intros Hs. unfold map_remove.
  enter_bucket.
  destruct (remove_loop _ _) as [[v curr']|]; [|done].
  mstep (by apply store_elem_nat, slot_lt).
  mstep reflexivity. simpl.
  unfold int_result. destruct (in_int _); [|done].
  reflexivity.
Qed.

(** ** The loops over a chain *)

Lemma contains_get_loop k l :
  contains_loop k l = bool_decide (is_Some (get_loop k l)).
Proof.
  induction l as [|c l IH]; simpl; [done|].
  by destruct (streq (key c) k).
Qed.

Lemma contains_loop_true k l :
  contains_loop k l = true ↔ is_Some (get_loop k l).
Proof. rewrite contains_get_loop. apply bool_decide_eq_true. Qed.

Lemma contains_loop_false k l :
  contains_loop k l = false ↔ get_loop k l = None.
Proof.
  rewrite contains_get_loop, bool_decide_eq_false, <- eq_None_not_Some. done.
Qed.

Lemma get_loop_Some k l v :
  get_loop k l = Some v →
  ∃ c, c ∈ l ∧ streq (key c) k = true ∧ value c = v.
Proof.
  induction l as [|c l IH]; simpl; [done|].
  destruct (streq (key c) k) eqn:E.
  - intros [= <-]. exists c. split; [by left|done].
  - intros (c' & ? & ? & ?)%IH. exists c'. split; [by right|done].
Qed.

(** In a chain whose stored keys are pairwise different, the loop finds
    any cell that has the key. *)
Lemma get_loop_elem k l c :
  NoDup (key <$> l) →
  (∀ c', c' ∈ l → strcpy (key c') = key c') →
  c ∈ l → streq (key c) k = true →
  get_loop k l = Some (value c).
Proof.
  intros Hnd Hst Hc Hk. induction l as [|c0 l IH]; simpl.
  - by apply elem_of_nil in Hc.
  - apply NoDup_cons in Hnd as [Hnotin Hnd].
    destruct (streq (key c0) k) eqn:E.
    + apply elem_of_cons in Hc as [->|Hc]; [done|].
      exfalso. apply Hnotin. apply list_elem_of_fmap. exists c. split; [|done].
      apply streq_strcpy in E, Hk.
      rewrite <- (Hst c0), <- (Hst c) by (by constructor). congruence.
    + apply elem_of_cons in Hc as [->|Hc]; [congruence|].
      apply IH; [done| |done]. intros c' Hc'. apply Hst. by right.
Qed.

Lemma set_loop_None k v l : set_loop k v l = None ↔ get_loop k l = None.
Proof.
  induction l as [|c l IH]; simpl; [done|].
  destruct (streq (key c) k); [done|].
  destruct (set_loop k v l); split; try done; intros H.
  - by apply IH in H.
  - by apply IH.
Qed.

Lemma set_loop_Some k v l l' :
  set_loop k v l = Some l' →
  get_loop k l' = Some v ∧ key <$> l' = key <$> l ∧ length l' = length l.
Proof.
  revert l'. induction l as [|c l IH]; intros l'; simpl; [done|].
  destruct (streq (key c) k) eqn:E.
  - intros [= <-]. simpl. by rewrite E.
  - destruct (set_loop k v l) as [l0|]; [|done]. intros [= <-].
    destruct (IH l0 eq_refl) as (? & Hk & Hl). simpl. rewrite E.
    split; [done|]. split; f_equal; assumption.
Qed.

(** Every other key reads the same from the updated chain. *)
Lemma set_loop_other k v l l' k' :
  set_loop k v l = Some l' → streq k k' = false →
  get_loop k' l' = get_loop k' l.
Proof.
  intros Hset Hne. revert l' Hset.
  induction l as [|c l IH]; intros l'; simpl; [done|].
  destruct (streq (key c) k) eqn:E.
  - intros [= <-]. simpl. destruct (streq (key c) k') eqn:E'; [|done].
    apply streq_strcpy in E, E'. apply streq_false in Hne. congruence.
  - destruct (set_loop k v l) as [l0|]; [|done]. intros [= <-]. simpl.
    by rewrite (IH l0).
Qed.

Lemma remove_loop_None k l : remove_loop k l = None ↔ get_loop k l = None.
Proof.
  induction l as [|c l IH]; simpl; [done|].
  destruct (streq (key c) k); [done|].
  destruct (remove_loop k l) as [[? ?]|]; split; try done; intros H.
  - by apply IH in H.
  - by apply IH.
Qed.

Lemma remove_loop_Some k l v l' :
  remove_loop k l = Some (v, l') →
  get_loop k l = Some v ∧
  ∃ l1 c l2, l = l1 ++ c :: l2 ∧ l' = l1 ++ l2 ∧ streq (key c) k = true.
Proof.
  revert l'. induction l as [|c l IH]; intros l'; simpl; [done|].
  destruct (streq (key c) k) eqn:E.
  - intros [= <- <-]. split; [done|]. by exists [], c, l.
  - destruct (remove_loop k l) as [[v0 l0]|]; [|done]. intros [= <- <-].
    destruct (IH l0 eq_refl) as (? & l1 & c' & l2 & -> & -> & ?).
    split; [done|]. by exists (c :: l1), c', l2.
Qed.

(** ** Cells of a bucket array *)

Lemma lookup_middle (a : list chain) (i : nat) (l : chain) :
  a !! i = Some l →
  ∃ pre post, a = pre ++ l :: post ∧ length pre = i
    ∧ ∀ l', <[i := l']> a = pre ++ l' :: post.
Proof.
  intros H. exists (take i a), (drop (S i) a).
  pose proof (lookup_lt_Some _ _ _ H) as Hlt.
  split; [by rewrite take_drop_middle|].
  split; [rewrite length_take; lia|].
  intros l'. by apply insert_take_drop.
Qed.

Lemma elem_of_concat (c : cell) (a : list chain) :
  c ∈ concat a ↔ ∃ (i : nat) l, a !! i = Some l ∧ c ∈ l.
Proof.
  rewrite list_elem_of_In, in_concat. split.
  - intros (l & Hl & Hc). apply list_elem_of_In, list_elem_of_lookup in Hl.
    destruct Hl as [i Hi]. exists i, l. by rewrite list_elem_of_In.
  - intros (i & l & Hi & Hc). exists l. rewrite <- !list_elem_of_In.
    split; [|done]. apply list_elem_of_lookup. by exists i.
Qed.

Lemma concat_middle (pre post : list chain) (l : chain) :
  concat (pre ++ l :: post) = concat pre ++ l ++ concat post.
Proof. by rewrite concat_app. Qed.

(** ** Looking a key up under the invariant *)

Lemma bucket_cells m k c : map_shape m → c ∈ bucket m k → c ∈ all_cells m.
Proof.
  intros Hs Hc. apply elem_of_concat.
  exists (slot m k), (bucket m k). by rewrite bucket_lookup.
Qed.

Lemma inv_chain_nodup m (i : nat) l :
  map_inv m → elems m !! i = Some l → NoDup (key <$> l).
Proof.
  intros Hinv (pre & post & Heq & _)%lookup_middle.
  pose proof (inv_nodup m Hinv) as Hnd. unfold all_keys, all_cells in Hnd.
  rewrite Heq, concat_middle, !fmap_app in Hnd.
  apply NoDup_app in Hnd as (_ & _ & Hnd).
  by apply NoDup_app in Hnd as (Hnd & _ & _).
Qed.

Lemma inv_chain_key m (i : nat) l c :
  map_inv m → elems m !! i = Some l → c ∈ l → strcpy (key c) = key c.
Proof.
  intros Hinv Hl Hc. apply (inv_key m Hinv), elem_of_concat. eauto.
Qed.

(** A cell of the map is found from the bucket its key hashes to. *)
Lemma lookup_cell m k c :
  map_inv m → c ∈ all_cells m → streq (key c) k = true →
  get_loop k (bucket m k) = Some (value c).
Proof.
  intros Hinv (i & l & Hl & Hc)%elem_of_concat Hk.
  pose proof (inv_shape m Hinv) as Hs.
  pose proof (inv_bucket m Hinv i l c Hl Hc) as Hi.
  assert (slot m k = i) as Hslot.
  { unfold slot. rewrite <- (hash_streq _ _ Hk), Hi. lia. }
  assert (bucket m k = l) as ->.
  { pose proof (bucket_lookup m k Hs) as Hb. rewrite Hslot in Hb. congruence. }
  apply get_loop_elem; [by eapply inv_chain_nodup| |done|done].
  intros c' Hc'. by eapply inv_chain_key.
Qed.

Lemma lookup_found m k v :
  map_shape m → get_loop k (bucket m k) = Some v →
  ∃ c, c ∈ all_cells m ∧ streq (key c) k = true ∧ value c = v.
Proof.
  intros Hs (c & Hc & ? & ?)%get_loop_Some. exists c.
  split; [by eapply bucket_cells|done].
Qed.

(** A key is absent from its bucket exactly when no cell holds it. *)
Lemma lookup_absent m k :
  map_inv m →
  get_loop k (bucket m k) = None ↔ strcpy k ∉ all_keys m.
Proof.
  intros Hinv. split.
  - intros Hnone (c & Hkc & Hc)%list_elem_of_fmap.
    assert (streq (key c) k = true) as Hk.
    { apply streq_strcpy. rewrite <- Hkc. apply strcpy_idemp. }
    by rewrite (lookup_cell m k c Hinv Hc Hk) in Hnone.
  - intros Hnotin. apply eq_None_not_Some. intros [v Hv].
    apply lookup_found in Hv as (c & Hc & Hk & _); [|by apply inv_shape].
    apply Hnotin, list_elem_of_fmap. exists c. split; [|done].
    apply streq_strcpy in Hk. rewrite <- Hk. apply (inv_key m Hinv c Hc).
Qed.

(** Two maps under the invariant that hold the same cells read alike. *)
Lemma lookup_perm m m' k :
  map_inv m → map_inv m' → all_cells m' ≡ₚ all_cells m →
  get_loop k (bucket m' k) = get_loop k (bucket m k).
Proof.
  intros Hinv Hinv' Hperm.
  destruct (get_loop k (bucket m k)) as [v|] eqn:E.
  - apply lookup_found in E as (c & Hc & Hk & <-); [|by apply inv_shape].
    apply lookup_cell; [done| |done]. by rewrite Hperm.
  - apply lookup_absent in E; [|done]. apply lookup_absent; [done|].
    unfold all_keys. by rewrite Hperm.
Qed.

(** ** Preservation of the invariant *)

Lemma map_create_inv : map_inv map_create.
Proof.
  split.
  - split; simpl; [lia|rewrite int_max_eq; lia|done].
  - by exists 0%nat.
  - done.
  - simpl. lia.
  - intros [|[|i]] curr c; simpl; try done.
    intros [= <-] Hc. by apply elem_of_nil in Hc.
  - intros c Hc. by apply elem_of_nil in Hc.
  - constructor.
Qed.

Lemma placed_insert cap a (j : nat) l' :
  placed cap a →
  (∀ c, c ∈ l' → hash (key c) mod cap = Z.of_nat j) →
  placed cap (<[j := l']> a).
Proof.
  intros Ha Hl' i curr c Hi Hc. destruct (decide (i = j)) as [->|Hne].
  - pose proof (lookup_lt_Some _ _ _ Hi) as Hlt. rewrite length_insert in Hlt.
    rewrite list_lookup_insert_eq in Hi by done. injection Hi as <-. auto.
  - rewrite list_lookup_insert_ne in Hi by done. eauto.
Qed.

Lemma placed_push cap a c : 0 < cap → placed cap a → placed cap (push cap a c).
Proof.
  intros Hcap Ha. unfold push. apply placed_insert; [done|].
  pose proof (Z.mod_pos_bound (hash (key c)) cap Hcap).
  intros c' [->|Hc']%elem_of_cons; [lia|].
  destruct (a !! _) as [l|] eqn:E; simpl in Hc'.
  - rewrite (Ha _ _ _ E Hc'). done.
  - by apply elem_of_nil in Hc'.
Qed.

Lemma placed_pushes cap l a :
  0 < cap → placed cap a → placed cap (pushes cap a l).
Proof.
  intros Hcap. revert a. unfold pushes.
  induction l as [|c l IH]; intros a Ha; simpl; [done|].
  by apply IH, placed_push.
Qed.

Lemma placed_replicate cap n : placed cap (replicate n []).
Proof.
  intros i curr c [-> _]%lookup_replicate Hc. by apply elem_of_nil in Hc.
Qed.

Lemma concat_replicate_nil n : concat (replicate n ([] : chain)) = [].
Proof. induction n; simpl; auto. Qed.

Lemma push_cells cap a c :
  0 < cap → Z.of_nat (length a) = cap → concat (push cap a c) ≡ₚ c :: concat a.
Proof.
  intros Hcap Hlen. unfold push. cbv zeta.
  pose proof (Z.mod_pos_bound (hash (key c)) cap Hcap).
  set (b := Z.to_nat _).
  destruct (lookup_lt_is_Some_2 a b) as [l Hl]; [lia|]. rewrite Hl. simpl.
  destruct (lookup_middle _ _ _ Hl) as (pre & post & -> & _ & Hins).
  rewrite Hins, !concat_middle. solve_Permutation.
Qed.

Lemma pushes_cells cap l a :
  0 < cap → Z.of_nat (length a) = cap →
  concat (pushes cap a l) ≡ₚ l ++ concat a.
Proof.
  intros Hcap. revert a. unfold pushes.
  induction l as [|c l IH]; intros a Hlen; simpl; [done|].
  rewrite IH by (by rewrite push_length). rewrite push_cells by done.
  solve_Permutation.
Qed.

Lemma grown_cells m :
  map_shape m → all_cells (grown m) ≡ₚ all_cells m.
Proof.
  intros [Hpos _ _]. unfold grown, all_cells at 1. simpl.
  rewrite pushes_cells; [|lia|rewrite length_replicate; lia].
  by rewrite concat_replicate_nil, app_nil_r.
Qed.

Lemma grown_inv m :
  map_inv m → capacity m * 2 ≤ INT_MAX → map_inv (grown m).
Proof.
  intros Hinv Hov. pose proof (inv_shape m Hinv) as Hs.
  pose proof (grown_cells m Hs) as Hperm.
  pose proof (shape_pos m Hs) as Hpos.
  split.
  - by apply grown_shape.
  - destruct (inv_pow2 m Hinv) as [n Hn]. exists (S n). simpl capacity.
    rewrite Hn, Nat2Z.inj_succ, Z.pow_succ_r; lia.
  - rewrite Hperm. apply (inv_size m Hinv).
  - pose proof (inv_load m Hinv). simpl. lia.
  - simpl. apply placed_pushes; [lia|]. apply placed_replicate.
  - intros c Hc. rewrite Hperm in Hc. by apply (inv_key m Hinv).
  - unfold all_keys. rewrite Hperm. apply (inv_nodup m Hinv).
Qed.

(** Replacing the bucket of [k] changes that stretch of the cells only. *)
Lemma bucket_split m k :
  map_shape m →
  ∃ pre post,
    all_cells m = pre ++ bucket m k ++ post
    ∧ ∀ l' cap sz,
        all_cells (Map (<[slot m k := l']> (elems m)) cap sz)
        = pre ++ l' ++ post.
Proof.
  intros Hs.
  destruct (lookup_middle _ _ _ (bucket_lookup m k Hs))
    as (pre & post & Heq & _ & Hins).
  exists (concat pre), (concat post). unfold all_cells. split.
  - by rewrite Heq at 1; rewrite concat_middle.
  - intros l' cap sz. simpl. by rewrite Hins, concat_middle.
Qed.

Lemma placed_bucket m k c :
  map_inv m → c ∈ bucket m k →
  hash (key c) mod capacity m = Z.of_nat (slot m k).
Proof.
  intros Hinv Hc. eapply (inv_bucket m Hinv); [|done].
  by apply bucket_lookup, inv_shape.
Qed.

Lemma update_inv m k v curr' :
  map_inv m → set_loop k v (bucket m k) = Some curr' →
  map_inv (Map (<[slot m k := curr']> (elems m)) (capacity m) (size m)).
Proof.
  intros Hinv (_ & Hkeys & Hlen)%set_loop_Some.
  pose proof (inv_shape m Hinv) as Hs.
  destruct (bucket_split m k Hs) as (pre & post & Hm & Hm').
  set (m' := Map _ _ _). specialize (Hm' curr' (capacity m) (size m)).
  fold m' in Hm'.
  assert (all_keys m' = all_keys m) as Hall.
  { unfold all_keys. by rewrite Hm, Hm', !fmap_app, Hkeys. }
  split.
  - apply map_shape_elems; [done|]. by rewrite length_insert.
  - apply (inv_pow2 m Hinv).
  - simpl. rewrite (inv_size m Hinv), Hm, Hm', !length_app, Hlen. done.
  - apply (inv_load m Hinv).
  - simpl. apply placed_insert; [apply (inv_bucket m Hinv)|].
    intros c Hc.
    assert (key c ∈ key <$> bucket m k) as (c0 & Hk & Hc0)%list_elem_of_fmap.
    { rewrite <- Hkeys. by apply list_elem_of_fmap_2. }
    rewrite Hk. by apply placed_bucket.
  - intros c Hc.
    assert (key c ∈ all_keys m) as (c0 & Hk & Hc0)%list_elem_of_fmap.
    { rewrite <- Hall. by apply list_elem_of_fmap_2. }
    rewrite Hk. by apply (inv_key m Hinv).
  - rewrite Hall. apply (inv_nodup m Hinv).
Qed.

Lemma linked_cells m k v :
  map_shape m → all_cells (linked m k v) ≡ₚ Cell (strcpy k) v :: all_cells m.
Proof.
  intros Hs. destruct (bucket_split m k Hs) as (pre & post & Hm & Hm').
  unfold linked. rewrite Hm, Hm'. solve_Permutation.
Qed.

Lemma linked_inv m k v :
  map_inv m → get_loop k (bucket m k) = None → size m < capacity m →
  map_inv (linked m k v).
Proof.
  intros Hinv Habs Hlt. pose proof (inv_shape m Hinv) as Hs.
  pose proof (linked_cells m k v Hs) as Hperm.
  split.
  - destruct Hs. split; simpl; [done|done|]. by rewrite length_insert.
  - apply (inv_pow2 m Hinv).
  - rewrite Hperm. simpl. rewrite (inv_size m Hinv). lia.
  - simpl. lia.
  - simpl. apply placed_insert; [apply (inv_bucket m Hinv)|].
    intros c [->|Hc]%elem_of_cons.
    + simpl. rewrite hash_strcpy. unfold slot.
      pose proof (Z.mod_pos_bound (hash k) _ (shape_pos m Hs)). lia.
    + by apply placed_bucket.
  - intros c Hc. rewrite Hperm in Hc.
    apply elem_of_cons in Hc as [->|Hc]; [apply strcpy_idemp|].
    by apply (inv_key m Hinv).
  - unfold all_keys. rewrite Hperm, fmap_cons. apply NoDup_cons. split.
    + by apply lookup_absent.
    + apply (inv_nodup m Hinv).
Qed.

Lemma removed_cells m k v curr' sz :
  map_shape m → remove_loop k (bucket m k) = Some (v, curr') →
  ∃ c, streq (key c) k = true
    ∧ all_cells m
      ≡ₚ c :: all_cells (Map (<[slot m k := curr']> (elems m)) (capacity m) sz).
Proof.
  intros Hs (_ & l1 & c & l2 & Hb & -> & Hk)%remove_loop_Some.
  destruct (bucket_split m k Hs) as (pre & post & Hm & Hm').
  exists c. split; [done|]. rewrite Hm, Hm', Hb. solve_Permutation.
Qed.

Lemma removed_inv m k v curr' :
  map_inv m → remove_loop k (bucket m k) = Some (v, curr') →
  map_inv (Map (<[slot m k := curr']> (elems m)) (capacity m) (size m - 1)).
Proof.
  intros Hinv Hrem. pose proof (inv_shape m Hinv) as Hs.
  destruct (removed_cells m k v curr' (size m - 1) Hs Hrem) as (c & Hk & Hperm).
  apply remove_loop_Some in Hrem as (_ & l1 & c' & l2 & Hb & -> & _).
  set (m' := Map _ _ _) in *.
  split.
  - destruct Hs. split; simpl; [done|done|]. by rewrite length_insert.
  - apply (inv_pow2 m Hinv).
  - simpl. rewrite (inv_size m Hinv), Hperm. simpl length. lia.
  - pose proof (inv_load m Hinv). simpl. lia.
  - simpl. apply placed_insert; [apply (inv_bucket m Hinv)|].
    intros c0 Hc0. apply placed_bucket; [done|]. rewrite Hb.
    apply elem_of_app in Hc0 as [?|?]; apply elem_of_app; [by left|].
    right. by right.
  - intros c0 Hc0. apply (inv_key m Hinv). rewrite Hperm. by right.
  - pose proof (inv_nodup m Hinv) as Hnd. unfold all_keys in Hnd.
    rewrite Hperm, fmap_cons in Hnd. by apply NoDup_cons in Hnd as [_ ?].
Qed.

Lemma extended_inv m :
  map_inv m → (size m = capacity m → capacity m * 2 ≤ INT_MAX) →
  map_inv (extended m).
Proof.
  intros Hinv Hov. unfold extended. destruct (decide _); [|done].
  apply grown_inv; auto.
Qed.

Lemma extended_cells m :
  map_shape m → all_cells (extended m) ≡ₚ all_cells m.
Proof.
  intros Hs. unfold extended. destruct (decide _); [|done].
  by apply grown_cells.
Qed.

Lemma extended_room m :
  map_inv m → size (extended m) < capacity (extended m).
Proof.
  intros Hinv. pose proof (inv_load m Hinv).
  pose proof (shape_pos m (inv_shape m Hinv)).
  unfold extended. destruct (decide _); simpl; lia.
Qed.

(** ** [map_set] under the invariant *)

Lemma bucket_insert m k l' sz k' :
  map_shape m →
  bucket (Map (<[slot m k := l']> (elems m)) (capacity m) sz) k'
  = if decide (slot m k' = slot m k) then l' else bucket m k'.
Proof.
  intros Hs. unfold bucket at 1. unfold slot at 1. simpl. fold (slot m k').
  destruct (decide _) as [->|Hne].
  - by rewrite list_lookup_insert_eq by by apply slot_lt.
  - by rewrite list_lookup_insert_ne by done.
Qed.

Lemma inv_size_nonneg m : map_inv m → 0 ≤ size m.
Proof. intros Hinv. rewrite (inv_size m Hinv). lia. Qed.

Lemma map_set_old m k v curr' :
  map_inv m → set_loop k v (bucket m k) = Some curr' →
  let m' := Map (<[slot m k := curr']> (elems m)) (capacity m) (size m) in
  map_set k v m = Ret tt m' ∧ map_inv m' ∧ bucket m' k = curr'.
Proof.
  intros Hinv Hset m'. pose proof (inv_shape m Hinv) as Hs.
  split; [by apply map_set_found|]. split; [by eapply update_inv|].
  unfold m'. rewrite bucket_insert by done. by rewrite decide_True.
Qed.

Lemma map_set_new m k v :
  map_inv m → get_loop k (bucket m k) = None → can_grow m →
  let m' := linked (extended m) k v in
  map_set k v m = Ret tt m' ∧ map_inv m'
  ∧ bucket m' k = Cell (strcpy k) v :: bucket (extended m) k.
Proof.
  intros Hinv Habs Hov m'. pose proof (inv_shape m Hinv) as Hs.
  pose proof (extended_inv m Hinv Hov) as Hinv1.
  pose proof (inv_shape _ Hinv1) as Hs1.
  split; [|split].
  - rewrite map_set_eq; [|done|done|].
    + by rewrite (proj2 (set_loop_None k v _) Habs).
    + pose proof (inv_size_nonneg m Hinv). pose proof (inv_load m Hinv).
      pose proof (shape_int m Hs). pose proof (shape_pos m Hs).
      unfold INT_MIN. split; [lia|].
      destruct (decide (size m = capacity m)) as [Heq|]; [|lia].
      specialize (Hov Heq). lia.
  - apply linked_inv; [done| |by apply extended_room].
    rewrite (lookup_perm m); [done..|]. by apply extended_cells.
  - unfold m', linked. rewrite bucket_insert by done. by rewrite decide_True.
Qed.

(** Two maps under the invariant that differ by one cell read alike at
    every other key. *)
Lemma lookup_perm_cons m m' c0 k :
  map_inv m → map_inv m' → all_cells m' ≡ₚ c0 :: all_cells m →
  streq (key c0) k = false →
  get_loop k (bucket m' k) = get_loop k (bucket m k).
Proof.
  intros Hinv Hinv' Hperm Hne.
  destruct (get_loop k (bucket m k)) as [v|] eqn:E.
  - apply lookup_found in E as (c & Hc & Hk & <-); [|by apply inv_shape].
    apply lookup_cell; [done| |done]. rewrite Hperm. by right.
  - apply lookup_absent in E; [|done]. apply lookup_absent; [done|].
    unfold all_keys. rewrite Hperm, fmap_cons.
    intros [Heq|?]%elem_of_cons; [|done].
    apply streq_false in Hne. apply Hne.
    rewrite <- Heq. apply strcpy_idemp.
Qed.

(** What a call of [map_set] that does not overflow leaves behind. *)
Lemma map_set_spec m k v :
  map_inv m → can_grow m →
  ∃ m', map_set k v m = Ret tt m' ∧ map_inv m'
    ∧ get_loop k (bucket m' k) = Some v
    ∧ ∀ k', streq k k' = false →
        get_loop k' (bucket m' k') = get_loop k' (bucket m k').
Proof.
  intros Hinv Hov. pose proof (inv_shape m Hinv) as Hs.
  destruct (set_loop k v (bucket m k)) as [curr'|] eqn:E.
  - destruct (map_set_old m k v curr' Hinv E) as (? & ? & Hb).
    eexists. split; [done|]. split; [done|]. split.
    + rewrite Hb. by apply set_loop_Some in E as (? & _).
    + intros k' Hne. rewrite bucket_insert by done.
      destruct (decide _) as [Heq|]; [|done].
      rewrite (set_loop_other _ _ _ _ _ E Hne).
      unfold bucket. by rewrite Heq.
  - apply set_loop_None in E.
    destruct (map_set_new m k v Hinv E Hov) as (? & Hinv' & Hb).
    eexists. split; [done|]. split; [done|]. split.
    + rewrite Hb. simpl. by rewrite streq_strcpy_r.
    + intros k' Hne.
      apply (lookup_perm_cons _ _ (Cell (strcpy k) v)); [done|done| |].
      * rewrite linked_cells by by apply extended_shape.
        by rewrite extended_cells.
      * simpl. apply streq_false. rewrite strcpy_idemp.
        by apply streq_false.
Qed.

Lemma map_get_found m k v :
  map_shape m → get_loop k (bucket m k) = Some v →
  map_contains k m = Ret true m ∧ map_get k m = Ret v m.
Proof.
  intros Hs Hget. rewrite map_contains_eq, map_get_eq, Hget by done.
  split; [|done]. f_equal. apply contains_loop_true. by rewrite Hget.
Qed.

Lemma map_contains_true m k :
  map_shape m →
  map_contains k m = Ret true m ↔ is_Some (get_loop k (bucket m k)).
Proof.
  intros Hs. rewrite map_contains_eq by done. rewrite <- contains_loop_true.
  split; [by intros [= ->]|by intros ->].
Qed.

Lemma map_contains_false m k :
  map_shape m →
  map_contains k m = Ret false m ↔ get_loop k (bucket m k) = None.
Proof.
  intros Hs. rewrite map_contains_eq by done. rewrite <- contains_loop_false.
  split; [by intros [= ->]|by intros ->].
Qed.

(** What a call of [map_set] leaves behind, when the key is present or
    the capacity can grow. *)
Lemma map_set_spec_gen m k v :
  map_inv m → can_set m k →
  ∃ m', map_set k v m = Ret tt m' ∧ map_inv m'
    ∧ get_loop k (bucket m' k) = Some v
    ∧ ∀ k', streq k k' = false →
        get_loop k' (bucket m' k') = get_loop k' (bucket m k').
Proof.
  intros Hinv Hcan. pose proof (inv_shape m Hinv) as Hs.
  destruct (get_loop k (bucket m k)) as [v0|] eqn:E.
  - destruct (set_loop k v (bucket m k)) as [curr'|] eqn:Es; last first.
    { apply set_loop_None in Es. congruence. }
    destruct (map_set_old m k v curr' Hinv Es) as (? & ? & Hb).
    eexists. split; [done|]. split; [done|]. split.
    + rewrite Hb. by apply set_loop_Some in Es as (? & _).
    + intros k' Hne. rewrite bucket_insert by done.
      destruct (decide _) as [Heq|]; [|done].
      rewrite (set_loop_other _ _ _ _ _ Es Hne).
      unfold bucket. by rewrite Heq.
  - apply map_set_spec; [done|]. apply Hcan. by apply map_contains_false.
Qed.

(** C1, as amended. On a map under the representation invariant, for a key
    that is present, or when a due doubling of the capacity stays within
    [int], [map_set(t, k, v)] returns, after which [map_contains(t, k)]
    returns true and [map_get(t, k)] returns [v]. *)
Theorem set_then_get m k v :
  map_inv m → can_set m k →
  ∃ m', map_set k v m = Ret tt m'
    ∧ map_contains k m' = Ret true m'
    ∧ map_get k m' = Ret v m'.
Proof.
  intros Hinv Hcan.
  destruct (map_set_spec_gen m k v Hinv Hcan) as (m' & Hset & Hinv' & Hget & _).
  exists m'. split; [done|]. apply map_get_found; [by apply inv_shape|done].
Qed.

(** ** The computable check implies the invariant *)

Lemma bucket_ok_elem cap i curr c :
  bucket_ok cap i curr = true → c ∈ curr →
  hash (key c) mod cap = Z.of_nat i ∧ strcpy (key c) = key c.
Proof.
  unfold bucket_ok. rewrite forallb_forall. intros H Hc%list_elem_of_In.
  apply H, andb_true_iff in Hc as [H1 H2].
  split; [lia|by apply bool_decide_eq_true in H2].
Qed.

Lemma buckets_ok_elem cap a : ∀ i (j : nat) curr c,
  buckets_ok cap i a = true → a !! j = Some curr → c ∈ curr →
  hash (key c) mod cap = Z.of_nat (i + j) ∧ strcpy (key c) = key c.
Proof.
  induction a as [|l a IH]; intros i j curr c; simpl; [done|].
  intros [Hl Ha]%andb_true_iff. destruct j as [|j]; simpl.
  - intros [= <-] Hc. rewrite Nat.add_0_r. by eapply bucket_ok_elem.
  - intros Hj Hc. replace (i + S j)%nat with (S i + j)%nat by lia. eauto.
Qed.

Lemma map_invb_sound m : map_invb m = true → map_inv m.
Proof.
  unfold map_invb. rewrite !andb_true_iff.
  intros [[[[[[[Hpos Hint] Hpow] Hlen] Hsize] Hload] Hb] Hnd].
  split.
  - split; lia.
  - exists (Z.to_nat (Z.log2 (capacity m))).
    rewrite Z2Nat.id by apply Z.log2_nonneg. lia.
  - lia.
  - lia.
  - intros i curr c Hi Hc.
    by destruct (buckets_ok_elem _ _ 0%nat i curr c Hb Hi Hc) as [? _].
  - intros c (i & curr & Hi & Hc)%elem_of_concat.
    by destruct (buckets_ok_elem _ _ 0%nat i curr c Hb Hi Hc) as [_ ?].
  - by apply bool_decide_eq_true in Hnd.
Qed.

(** The invariant of a concrete map, by computation. *)
Ltac check_inv := apply map_invb_sound; vm_compute; reflexivity.

Lemma can_grow_small m : (capacity m * 2 <=? INT_MAX) = true → can_grow m.
Proof. intros H _. lia. Qed.

Lemma set_then_get_witness :
  let m := Map [[Cell ["a"%byte] 1]] 1 1 in
  let k := ["b"%byte] in
  map_inv m ∧ can_set m k
  ∧ ∃ m', map_set k 2 m = Ret tt m'
      ∧ map_contains k m' = Ret true m'
      ∧ map_get k m' = Ret 2 m'.
Proof.
  intros m k.
  assert (map_inv m) as Hinv by check_inv.
  assert (can_set m k) as Hcan
    by (intros _; apply can_grow_small; vm_compute; reflexivity).
  split; [exact Hinv|]. split; [exact Hcan|].
  exact (set_then_get m k 2 Hinv Hcan).
Defined.

(** ** [map_set] on a key already present *)

Lemma key_table_insert m (i : nat) l l' cap sz :
  elems m !! i = Some l → key <$> l' = key <$> l →
  key_table (Map (<[i := l']> (elems m)) cap sz) = key_table m.
Proof.
  intros Hi Hk. unfold key_table. simpl. rewrite list_fmap_insert, Hk.
  apply list_insert_id. by rewrite list_lookup_fmap, Hi.
Qed.

Lemma map_set_present m k v :
  map_inv m → is_Some (get_loop k (bucket m k)) →
  ∃ m', map_set k v m = Ret tt m' ∧ map_inv m'
    ∧ capacity m' = capacity m ∧ size m' = size m
    ∧ key_table m' = key_table m
    ∧ get_loop k (bucket m' k) = Some v.
Proof.
  intros Hinv Hsome. pose proof (inv_shape m Hinv) as Hs.
  destruct (set_loop k v (bucket m k)) as [curr'|] eqn:E.
  - destruct (map_set_old m k v curr' Hinv E) as (? & ? & Hb).
    eexists. split; [done|]. split; [done|].
    apply set_loop_Some in E as (? & Hk & _).
    split; [done|]. split; [done|]. split; [|by rewrite Hb].
    eapply key_table_insert; [by apply bucket_lookup|done].
  - apply set_loop_None in E. rewrite E in Hsome. by destruct Hsome.
Qed.

(** C10. [map_set(t, k, v)] on a key already present returns without
    growing the map: the capacity, the size and the keys held by every
    bucket, in chain order, are those before the call, also when the size
    equals the capacity (no bound on the capacity is assumed). *)
Theorem set_present_no_growth m k v :
  map_inv m → map_contains k m = Ret true m →
  ∃ m', map_set k v m = Ret tt m'
    ∧ capacity m' = capacity m
    ∧ size m' = size m
    ∧ key_table m' = key_table m.
Proof.
  intros Hinv Hin. apply map_contains_true in Hin; [|by apply inv_shape].
  destruct (map_set_present m k v Hinv Hin) as (m' & ? & _ & ? & ? & ? & _).
  by exists m'.
Qed.

Lemma set_present_no_growth_witness :
  let m := Map [[Cell ["a"%byte] 1]] 1 1 in
  let k := ["a"%byte] in
  (map_inv m ∧ map_contains k m = Ret true m ∧ size m = capacity m)
  ∧ ∃ m', map_set k 7 m = Ret tt m'
      ∧ capacity m' = capacity m
      ∧ size m' = size m
      ∧ key_table m' = key_table m.
Proof.
  intros m k.
  assert (map_inv m) as Hinv by check_inv.
  assert (map_contains k m = Ret true m) as Hin by reflexivity.
  split; [split; [exact Hinv|split; [exact Hin|reflexivity]]|].
  exact (set_present_no_growth m k 7 Hinv Hin).
Defined.

(** C5. For a key already present, [map_set(t, k, v1)] followed by
    [map_set(t, k, v2)] returns with [map_size(t)] as it was and
    [map_get(t, k)] returning [v2]; the keys stored in the buckets are
    unchanged. *)
Theorem set_twice_overwrites m k v1 v2 :
  map_inv m → map_contains k m = Ret true m →
  ∃ n m2, map_size m = Ret n m
    ∧ (map_set k v1;; map_set k v2) m = Ret tt m2
    ∧ map_size m2 = Ret n m2
    ∧ map_get k m2 = Ret v2 m2
    ∧ key_table m2 = key_table m.
Proof.
  intros Hinv Hin. apply map_contains_true in Hin; [|by apply inv_shape].
  destruct (map_set_present m k v1 Hinv Hin)
    as (m1 & Hset1 & Hinv1 & _ & Hsz1 & Hk1 & Hget1).
  destruct (map_set_present m1 k v2 Hinv1)
    as (m2 & Hset2 & Hinv2 & _ & Hsz2 & Hk2 & Hget2); [by rewrite Hget1|].
  exists (size m), m2. split; [done|]. split.
  { by mstep (exact Hset1). }
  split; [unfold map_size, load_size; congruence|].
  split; [|congruence].
  by apply map_get_found; [apply inv_shape|].
Qed.

Lemma set_twice_overwrites_witness :
  let m := Map [[Cell ["a"%byte] 1]; [Cell ["b"%byte] 2]] 2 2 in
  let k := ["b"%byte] in
  (map_inv m ∧ map_contains k m = Ret true m)
  ∧ ∃ n m2, map_size m = Ret n m
      ∧ (map_set k 5;; map_set k 6) m = Ret tt m2
      ∧ map_size m2 = Ret n m2
      ∧ map_get k m2 = Ret 6 m2
      ∧ key_table m2 = key_table m.
Proof.
  intros m k.
  assert (map_inv m) as Hinv by check_inv.
  assert (map_contains k m = Ret true m) as Hin by reflexivity.
  split; [split; [exact Hinv|exact Hin]|].
  exact (set_twice_overwrites m k 5 6 Hinv Hin).
Defined.

(** ** [map_get] and [map_remove] on an absent key *)

(** C8. For a key that is not present, [map_get(t, k)] and
    [map_remove(t, k)] return nothing: both end on the failure branch, the
    map (size, capacity and every bucket) being as it was. *)
Theorem absent_key_aborts m k :
  map_inv m → map_contains k m = Ret false m →
  map_get k m = Abort m ∧ map_remove k m = Abort m.
Proof.
  intros Hinv Hout. pose proof (inv_shape m Hinv) as Hs.
  apply map_contains_false in Hout; [|done].
  rewrite map_get_eq, map_remove_eq, Hout by done.
  by rewrite (proj2 (remove_loop_None k _) Hout).
Qed.

Lemma absent_key_aborts_witness :
  let m := Map [[Cell ["a"%byte] 1]; [Cell ["b"%byte] 2]] 2 2 in
  let k := ["c"%byte] in
  (map_inv m ∧ map_contains k m = Ret false m)
  ∧ map_get k m = Abort m ∧ map_remove k m = Abort m.
Proof.
  intros m k.
  assert (map_inv m) as Hinv by check_inv.
  assert (map_contains k m = Ret false m) as Hout by reflexivity.
  split; [split; [exact Hinv|exact Hout]|].
  exact (absent_key_aborts m k Hinv Hout).
Defined.

(** ** [map_remove] on a key that is present *)

Lemma map_remove_spec m k v :
  map_inv m → get_loop k (bucket m k) = Some v →
  ∃ m' c, map_remove k m = Ret v m' ∧ map_inv m'
    ∧ capacity m' = capacity m ∧ size m' = size m - 1
    ∧ get_loop k (bucket m' k) = None
    ∧ streq (key c) k = true ∧ all_cells m ≡ₚ c :: all_cells m'.
Proof.
  intros Hinv Hget. pose proof (inv_shape m Hinv) as Hs.
  destruct (remove_loop k (bucket m k)) as [[v' curr']|] eqn:E; last first.
  { apply remove_loop_None in E. congruence. }
  assert (v' = v) as ->.
  { apply remove_loop_Some in E as (? & _). congruence. }
  pose proof (removed_inv m k v curr' Hinv E) as Hinv'.
  destruct (removed_cells m k v curr' (size m - 1) Hs E) as (c & Hk & Hperm).
  set (m' := Map _ _ _) in *. exists m', c.
  assert (1 ≤ size m) as Hpos.
  { rewrite (inv_size m Hinv), Hperm. simpl length. lia. }
  split.
  { rewrite map_remove_eq, E by done. rewrite in_int_true; [done|].
    pose proof (inv_load m Hinv). pose proof (shape_int m Hs).
    unfold INT_MIN. lia. }
  do 3 (split; [done|]). split; [|done].
  apply lookup_absent; [done|].
  pose proof (inv_nodup m Hinv) as Hnd. unfold all_keys in Hnd.
  rewrite Hperm, fmap_cons in Hnd. apply NoDup_cons in Hnd as [Hnotin _].
  assert (key c = strcpy k) as <-; [|done].
  apply streq_strcpy in Hk. rewrite <- Hk. symmetry.
  apply (inv_key m Hinv). rewrite Hperm. by left.
Qed.

(** C4. For a key that is present, [map_remove(t, k)] returns the value
    stored for [k] (the one [map_get] returns before the call); after it
    [map_contains(t, k)] is false and [map_size(t)] is one less. *)
Theorem remove_present m k :
  map_inv m → map_contains k m = Ret true m →
  ∃ v n m', map_get k m = Ret v m
    ∧ map_size m = Ret n m
    ∧ map_remove k m = Ret v m'
    ∧ map_contains k m' = Ret false m'
    ∧ map_size m' = Ret (n - 1) m'.
Proof.
  intros Hinv Hin. pose proof (inv_shape m Hinv) as Hs.
  apply map_contains_true in Hin as [v Hget]; [|done].
  destruct (map_remove_spec m k v Hinv Hget)
    as (m' & c & Hrem & Hinv' & _ & Hsz & Habs & _).
  exists v, (size m), m'.
  split; [by apply map_get_found|]. split; [done|]. split; [done|].
  split; [by apply map_contains_false; [apply inv_shape|]|].
  unfold map_size, load_size. by rewrite Hsz.
Qed.

Lemma remove_present_witness :
  let m := Map [[Cell ["a"%byte] 1]; [Cell ["b"%byte] 2]] 2 2 in
  let k := ["b"%byte] in
  (map_inv m ∧ map_contains k m = Ret true m)
  ∧ ∃ v n m', map_get k m = Ret v m
      ∧ map_size m = Ret n m
      ∧ map_remove k m = Ret v m'
      ∧ map_contains k m' = Ret false m'
      ∧ map_size m' = Ret (n - 1) m'.
Proof.
  intros m k.
  assert (map_inv m) as Hinv by check_inv.
  assert (map_contains k m = Ret true m) as Hin by reflexivity.
  split; [split; [exact Hinv|exact Hin]|].
  exact (remove_present m k Hinv Hin).
Defined.

(** ** [map_set] on a new key *)

Lemma extended_capacity m :
  capacity (extended m)
  = if decide (size m = capacity m) then capacity m * 2 else capacity m.
Proof. unfold extended. by destruct (decide _). Qed.

Lemma map_set_absent m k v :
  map_inv m → can_grow m → get_loop k (bucket m k) = None →
  let m' := linked (extended m) k v in
  map_set k v m = Ret tt m' ∧ map_inv m'
  ∧ size m' = size m + 1
  ∧ capacity m' =
      (if decide (size m = capacity m) then capacity m * 2 else capacity m)
  ∧ get_loop k (bucket m' k) = Some v
  ∧ ∀ k', streq k k' = false →
      get_loop k' (bucket m' k') = get_loop k' (bucket m k').
Proof.
  intros Hinv Hov Habs m'. pose proof (inv_shape m Hinv) as Hs.
  destruct (map_set_new m k v Hinv Habs Hov) as (Hset & Hinv' & Hb).
  split; [done|]. split; [done|].
  split; [simpl; by rewrite extended_size|].
  split; [apply extended_capacity|]. split.
  - fold m' in Hb. rewrite Hb. simpl. by rewrite streq_strcpy_r.
  - intros k' Hne.
    apply (lookup_perm_cons _ _ (Cell (strcpy k) v)); [done|done| |].
    + unfold m'. rewrite linked_cells by by apply extended_shape.
      by rewrite extended_cells.
    + simpl. apply streq_false. rewrite strcpy_idemp. by apply streq_false.
Qed.

(** C6. A growth, on the insertion of a new key into a full map, leaves
    every key that was present as it was: after [extend_if_necessary] has
    doubled the capacity, and after the whole [map_set], [map_contains]
    still returns true and [map_get] still returns the same value. *)
Theorem growth_transparent m k0 v0 k :
  map_inv m → size m = capacity m → capacity m * 2 ≤ INT_MAX →
  map_contains k0 m = Ret false m →
  map_contains k m = Ret true m →
  ∃ v m1 m',
    map_get k m = Ret v m
    ∧ extend_if_necessary m = Ret tt m1
    ∧ capacity m1 = capacity m * 2
    ∧ map_contains k m1 = Ret true m1 ∧ map_get k m1 = Ret v m1
    ∧ map_set k0 v0 m = Ret tt m'
    ∧ capacity m' = capacity m * 2
    ∧ map_contains k m' = Ret true m' ∧ map_get k m' = Ret v m'.
Proof.
  intros Hinv Hfull Hov Hout Hin. pose proof (inv_shape m Hinv) as Hs.
  apply map_contains_false in Hout; [|done].
  apply map_contains_true in Hin as [v Hget]; [|done].
  assert (can_grow m) as Hgrow by (by intros _).
  pose proof (extended_inv m Hinv Hgrow) as Hinv1.
  destruct (map_set_absent m k0 v0 Hinv Hgrow Hout)
    as (Hset & Hinv' & _ & Hcap' & _ & Hframe).
  assert (streq k0 k = false) as Hne.
  { destruct (streq k0 k) eqn:E; [|done].
    apply streq_strcpy in E. apply lookup_absent in Hout; [|done].
    apply lookup_found in Hget as (c & Hc & Hk & _); [|done].
    exfalso. apply Hout, list_elem_of_fmap. exists c. split; [|done].
    apply streq_strcpy in Hk. rewrite E, <- Hk.
    by apply (inv_key m Hinv). }
  exists v, (extended m), (linked (extended m) k0 v0).
  split; [by apply map_get_found|]. split; [by apply extend_eq|].
  split; [by rewrite extended_capacity, decide_True|].
  assert (get_loop k (bucket (extended m) k) = Some v) as Hget1.
  { rewrite (lookup_perm m); [done..|]. by apply extended_cells. }
  destruct (map_get_found _ k v (inv_shape _ Hinv1) Hget1) as [? ?].
  split; [done|]. split; [done|]. split; [done|].
  split; [by rewrite Hcap', decide_True|].
  apply map_get_found; [by apply inv_shape|]. by rewrite Hframe.
Qed.

Lemma growth_transparent_witness :
  let m := Map [[Cell ["a"%byte] 1]; [Cell ["b"%byte] 2]] 2 2 in
  let k0 := ["c"%byte] in
  let k := ["b"%byte] in
  (map_inv m ∧ size m = capacity m ∧ capacity m * 2 ≤ INT_MAX
   ∧ map_contains k0 m = Ret false m ∧ map_contains k m = Ret true m)
  ∧ ∃ v m1 m',
      map_get k m = Ret v m
      ∧ extend_if_necessary m = Ret tt m1
      ∧ capacity m1 = capacity m * 2
      ∧ map_contains k m1 = Ret true m1 ∧ map_get k m1 = Ret v m1
      ∧ map_set k0 3 m = Ret tt m'
      ∧ capacity m' = capacity m * 2
      ∧ map_contains k m' = Ret true m' ∧ map_get k m' = Ret v m'.
Proof.
  intros m k0 k.
  assert (map_inv m) as Hinv by check_inv.
  assert (size m = capacity m) as Hfull by reflexivity.
  assert (capacity m * 2 ≤ INT_MAX) as Hov by (vm_compute; discriminate).
  assert (map_contains k0 m = Ret false m) as Hout by reflexivity.
  assert (map_contains k m = Ret true m) as Hin by reflexivity.
  split; [by repeat (split; [assumption|])|].
  exact (growth_transparent m k0 3 k Hinv Hfull Hov Hout Hin).
Defined.

Lemma can_grow_le m : capacity m * 2 ≤ INT_MAX → can_grow m.
Proof. by intros ? _. Qed.

(** Three new keys set one after the other on a fresh map. *)
Lemma three_keys k1 k2 k3 v1 v2 v3 :
  strcpy k1 ≠ strcpy k2 → strcpy k1 ≠ strcpy k3 → strcpy k2 ≠ strcpy k3 →
  ∃ m3,
    (map_set k1 v1;; map_set k2 v2;; map_set k3 v3) map_create = Ret tt m3
    ∧ capacity m3 = 4
    ∧ map_get k1 m3 = Ret v1 m3
    ∧ map_get k2 m3 = Ret v2 m3
    ∧ map_get k3 m3 = Ret v3 m3.
Proof.
  intros H12 H13 H23.
  assert (streq k1 k2 = false) as E12 by by apply streq_false.
  assert (streq k1 k3 = false) as E13 by by apply streq_false.
  assert (streq k2 k3 = false) as E23 by by apply streq_false.
  assert (streq k2 k1 = false) as E21 by by apply streq_false.
  assert (streq k3 k1 = false) as E31 by by apply streq_false.
  assert (streq k3 k2 = false) as E32 by by apply streq_false.
  pose proof map_create_inv as Hinv0.
  assert (∀ k, get_loop k (bucket map_create k) = None) as Hnone0.
  { intros k. unfold bucket. simpl.
    by destruct (slot map_create k) as [|[|?]]. }
  destruct (map_set_absent map_create k1 v1 Hinv0)
    as (Hset1 & Hinv1 & Hsz1 & Hcap1 & Hg11 & Hf1); [|done|].
  { apply can_grow_le. simpl. rewrite int_max_eq. lia. }
  remember (linked (extended map_create) k1 v1) as m1 eqn:Hm1. clear Hm1.
  simpl in Hsz1, Hcap1.
  destruct (map_set_absent m1 k2 v2 Hinv1)
    as (Hset2 & Hinv2 & Hsz2 & Hcap2 & Hg22 & Hf2).
  { apply can_grow_le. rewrite Hcap1, int_max_eq. lia. }
  { by rewrite Hf1. }
  remember (linked (extended m1) k2 v2) as m2 eqn:Hm2. clear Hm2.
  rewrite Hsz1 in Hsz2. rewrite Hsz1, Hcap1 in Hcap2. simpl in Hsz2, Hcap2.
  destruct (map_set_absent m2 k3 v3 Hinv2)
    as (Hset3 & Hinv3 & Hsz3 & Hcap3 & Hg33 & Hf3).
  { apply can_grow_le. rewrite Hcap2, int_max_eq. lia. }
  { by rewrite Hf2, Hf1. }
  remember (linked (extended m2) k3 v3) as m3 eqn:Hm3. clear Hm3.
  rewrite Hsz2, Hcap2 in Hcap3. simpl in Hcap3.
  pose proof (inv_shape m3 Hinv3) as Hs3.
  exists m3. split.
  { mstep (exact Hset1). by mstep (exact Hset2). }
  split; [done|]. split; [|split].
  - apply map_get_found; [done|]. rewrite Hf3, Hf2 by done. done.
  - apply map_get_found; [done|]. by rewrite Hf3.
  - by apply map_get_found.
Qed.

(** C2, as amended. On a map whose due doubling stays within [int],
    [map_set] on a new key first runs [extend_if_necessary]: when the
    size equals the capacity the capacity doubles and every cell is pushed
    on a fresh array of the new capacity, in the bucket its key hashes to
    under it; otherwise the map is untouched. Only then is the new cell
    linked, at the head of the bucket its key hashes to under the capacity
    the growth left. Three different keys set on a fresh map leave a
    capacity of 4, each key reading its value. *)
Theorem set_new_key_grows m k v k1 k2 k3 v1 v2 v3 :
  map_inv m → can_grow m → map_contains k m = Ret false m →
  strcpy k1 ≠ strcpy k2 → strcpy k1 ≠ strcpy k3 → strcpy k2 ≠ strcpy k3 →
  (∃ m1 m',
     extend_if_necessary m = Ret tt m1
     ∧ (size m = capacity m →
          capacity m1 = capacity m * 2
          ∧ elems m1 = pushes (capacity m1)
                         (replicate (Z.to_nat (capacity m1)) [])
                         (all_cells m)
          ∧ placed (capacity m1) (elems m1)
          ∧ all_cells m1 ≡ₚ all_cells m)
     ∧ (size m ≠ capacity m → m1 = m)
     ∧ map_set k v m = Ret tt m'
     ∧ capacity m' = capacity m1
     ∧ size m' = size m + 1
     ∧ elems m' = <[Z.to_nat (hash k mod capacity m1) :=
                     Cell (strcpy k) v :: bucket m1 k]> (elems m1))
  ∧ (∃ m3,
       (map_set k1 v1;; map_set k2 v2;; map_set k3 v3) map_create = Ret tt m3
       ∧ 4 ≤ capacity m3
       ∧ map_get k1 m3 = Ret v1 m3
       ∧ map_get k2 m3 = Ret v2 m3
       ∧ map_get k3 m3 = Ret v3 m3).
Proof.
  intros Hinv Hov Hout H12 H13 H23. pose proof (inv_shape m Hinv) as Hs.
  split.
  - apply map_contains_false in Hout; [|done].
    destruct (map_set_absent m k v Hinv Hov Hout) as (Hset & _ & Hsz & _).
    exists (extended m), (linked (extended m) k v).
    split; [by apply extend_eq|]. split; [|split].
    + intros Hfull. unfold extended. rewrite decide_True by done.
      split; [done|]. split; [done|]. split.
      * apply (inv_bucket _ (grown_inv m Hinv (Hov Hfull))).
      * by apply grown_cells.
    + intros Hne. unfold extended. by rewrite decide_False.
    + done.
  - destruct (three_keys k1 k2 k3 v1 v2 v3 H12 H13 H23)
      as (m3 & ? & Hcap & ?).
    exists m3. split; [done|]. split; [lia|done].
Qed.

Lemma set_new_key_grows_witness :
  let m := Map [[Cell ["a"%byte] 1]; [Cell ["b"%byte] 2]] 2 2 in
  let k := ["c"%byte] in
  let k1 := ["a"%byte] in
  let k2 := ["b"%byte] in
  let k3 := ["c"%byte] in
  (map_inv m ∧ can_grow m ∧ map_contains k m = Ret false m
   ∧ strcpy k1 ≠ strcpy k2 ∧ strcpy k1 ≠ strcpy k3 ∧ strcpy k2 ≠ strcpy k3)
  ∧ (∃ m1 m',
       extend_if_necessary m = Ret tt m1
       ∧ (size m = capacity m →
            capacity m1 = capacity m * 2
            ∧ elems m1 = pushes (capacity m1)
                           (replicate (Z.to_nat (capacity m1)) [])
                           (all_cells m)
            ∧ placed (capacity m1) (elems m1)
            ∧ all_cells m1 ≡ₚ all_cells m)
       ∧ (size m ≠ capacity m → m1 = m)
       ∧ map_set k 3 m = Ret tt m'
       ∧ capacity m' = capacity m1
       ∧ size m' = size m + 1
       ∧ elems m' = <[Z.to_nat (hash k mod capacity m1) :=
                       Cell (strcpy k) 3 :: bucket m1 k]> (elems m1))
  ∧ (∃ m3,
       (map_set k1 1;; map_set k2 2;; map_set k3 3) map_create = Ret tt m3
       ∧ 4 ≤ capacity m3
       ∧ map_get k1 m3 = Ret 1 m3
       ∧ map_get k2 m3 = Ret 2 m3
       ∧ map_get k3 m3 = Ret 3 m3).
Proof.
  intros m k k1 k2 k3.
  assert (map_inv m) as Hinv by check_inv.
  assert (can_grow m) as Hov by (apply can_grow_small; vm_compute; reflexivity).
  assert (map_contains k m = Ret false m) as Hout by reflexivity.
  assert (strcpy k1 ≠ strcpy k2) as H12 by (vm_compute; discriminate).
  assert (strcpy k1 ≠ strcpy k3) as H13 by (vm_compute; discriminate).
  assert (strcpy k2 ≠ strcpy k3) as H23 by (vm_compute; discriminate).
  split; [by repeat (split; [assumption|])|].
  exact (set_new_key_grows m k 3 k1 k2 k3 1 2 3 Hinv Hov Hout H12 H13 H23).
Defined.

(** ** Iteration *)

Lemma scan_eq n (i : nat) m :
  (i + n)%nat = length (elems m) →
  scan n (Z.of_nat i) m = Ret (first_chain (drop i (elems m))) m.
Proof.
  revert i. induction n as [|n IH]; intros i Hlen; simpl.
  - by rewrite drop_ge by lia.
  - destruct (lookup_lt_is_Some_2 (elems m) i) as [l Hl]; [lia|].
    mstep (by rewrite load_elem_nat, Hl).
    rewrite (drop_S _ _ _ Hl). simpl.
    destruct l as [|c l]; [|done].
    replace (Z.of_nat i + 1) with (Z.of_nat (S i)) by lia.
    apply IH. lia.
Qed.

Lemma scan_from_eq (i : nat) m :
  map_shape m → (i ≤ length (elems m))%nat →
  scan_from (Z.of_nat i) m = Ret (first_chain (drop i (elems m))) m.
Proof.
  intros [_ _ Hlen] Hi. unfold scan_from.
  mstep reflexivity. apply scan_eq. lia.
Qed.

Lemma first_chain_spec (a : list (list cell)) :
  (first_chain a = [] ∧ concat a = [])
  ∨ ∃ j : nat, a !! j = Some (first_chain a) ∧ first_chain a ≠ []
      ∧ concat a = first_chain a ++ concat (drop (S j) a).
Proof.
  induction a as [|l a IH]; simpl; [by left|].
  destruct l as [|c l].
  - destruct IH as [[? ?]|(j & ? & ? & ?)]; [by left|].
    right. by exists (S j).
  - right. exists 0%nat. by rewrite drop_0.
Qed.

Lemma walk_from_nil fuel m : walk_from fuel [] m = Ret (Some []) m.
Proof. by destruct fuel. Qed.

Lemma walk_from_eq m : map_inv m → ∀ fuel p (i : nat) pre,
  elems m !! i = Some (pre ++ p) → p ≠ [] →
  (length p + length (concat (drop (S i) (elems m))) ≤ fuel)%nat →
  walk_from fuel p m
  = Ret (Some (key <$> p ++ concat (drop (S i) (elems m)))) m.
Proof.
  intros Hinv. pose proof (inv_shape m Hinv) as Hs.
  induction fuel as [|fuel IH]; intros p i pre Hi Hp Hfuel.
  { destruct p; [done|]. simpl in Hfuel. lia. }
  destruct p as [|c next]; [done|]. simpl in Hfuel.
  destruct next as [|c' next'].
  - assert (slot m (key c) = i) as Hslot.
    { unfold slot. rewrite (inv_bucket m Hinv i _ c Hi); [lia|].
      apply elem_of_app. right. by left. }
    assert (map_next [c] m
            = Ret (first_chain (drop (S i) (elems m))) m) as Hnext.
    { simpl. mstep (by apply bucket_of_shape).
      rewrite Hslot. replace (Z.of_nat i + 1) with (Z.of_nat (S i)) by lia.
      apply scan_from_eq; [done|]. apply lookup_lt_Some in Hi. lia. }
    cbn [walk_from]. mstep (exact Hnext).
    destruct (first_chain_spec (drop (S i) (elems m)))
      as [[Hq Hcat]|(j & Hj & Hq & Hcat)].
    + rewrite Hq, Hcat. by erewrite bind_Ret by apply walk_from_nil.
    + rewrite lookup_drop in Hj. rewrite drop_drop in Hcat.
      replace (S i + S j)%nat with (S (S i + j)) in Hcat by lia.
      erewrite bind_Ret; last first.
      { apply (IH _ (S i + j)%nat []); [done|done|].
        rewrite Hcat, length_app in Hfuel. simpl in Hfuel.
        change (S i + j)%nat with (S (i + j)). lia. }
      by rewrite Hcat.
  - cbn [walk_from map_next]. mstep reflexivity.
    erewrite bind_Ret; last first.
    { apply (IH _ i (pre ++ [c])); [by rewrite <- app_assoc|done|].
      simpl in *. lia. }
    reflexivity.
Qed.

Lemma walk_eq m fuel :
  map_inv m → (length (all_cells m) ≤ fuel)%nat →
  walk fuel m = Ret (Some (all_keys m)) m.
Proof.
  intros Hinv Hfuel. pose proof (inv_shape m Hinv) as Hs.
  unfold walk, map_first.
  erewrite bind_Ret by (apply (scan_from_eq 0); [done|lia]).
  rewrite drop_0. unfold all_keys, all_cells in *.
  destruct (first_chain_spec (elems m)) as [[Hq Hcat]|(j & Hj & Hq & Hcat)].
  - rewrite Hq, Hcat. apply walk_from_nil.
  - rewrite Hcat. apply (walk_from_eq m Hinv _ _ j []); [done|done|].
    rewrite Hcat, length_app in Hfuel. lia.
Qed.

Lemma map_contains_keys m k :
  map_inv m → map_contains k m = Ret true m ↔ strcpy k ∈ all_keys m.
Proof.
  intros Hinv. pose proof (inv_shape m Hinv) as Hs.
  rewrite map_contains_true by done.
  rewrite <- not_eq_None_Some, lookup_absent by done.
  split; [apply dec_stable|by intros ? ?].
Qed.

(** C3. On a map under the invariant, the walk from [map_first] through
    [map_next] returns, within as many steps as the map has entries, with
    [NULL] reached and the keys met being those of the buckets by
    increasing index, each chain from its head; [map_first] is the head of
    the first non-empty bucket; the keys met are pairwise different, as
    many as the size, and they are the keys present. *)
Theorem walk_visits_each_key_once m fuel :
  map_inv m → (Z.to_nat (size m) ≤ fuel)%nat →
  walk fuel m = Ret (Some (key <$> concat (elems m))) m
  ∧ map_first m = Ret (first_chain (elems m)) m
  ∧ NoDup (key <$> concat (elems m))
  ∧ Z.of_nat (length (key <$> concat (elems m))) = size m
  ∧ ∀ k, map_contains k m = Ret true m ↔ strcpy k ∈ key <$> concat (elems m).
Proof.
  intros Hinv Hfuel. pose proof (inv_shape m Hinv) as Hs.
  pose proof (inv_size m Hinv) as Hsz.
  split; [apply walk_eq; [done|lia]|]. split.
  { unfold map_first. rewrite (scan_from_eq 0) by (done || lia).
    by rewrite drop_0. }
  split; [apply (inv_nodup m Hinv)|].
  split; [by rewrite length_fmap|].
  intros k. by apply map_contains_keys.
Qed.

Lemma walk_visits_each_key_once_witness :
  let m := Map [[Cell ["e"%byte] 5; Cell ["a"%byte] 1]; []; [];
                [Cell ["b"%byte] 2]] 4 3 in
  (map_inv m ∧ (Z.to_nat (size m) ≤ 3)%nat)
  ∧ walk 3 m = Ret (Some (key <$> concat (elems m))) m
  ∧ map_first m = Ret (first_chain (elems m)) m
  ∧ NoDup (key <$> concat (elems m))
  ∧ Z.of_nat (length (key <$> concat (elems m))) = size m
  ∧ ∀ k, map_contains k m = Ret true m ↔ strcpy k ∈ key <$> concat (elems m).
Proof.
  intros m.
  assert (map_inv m) as Hinv by check_inv.
  assert (Z.to_nat (size m) ≤ 3)%nat as Hfuel by (vm_compute; lia).
  split; [split; [exact Hinv|exact Hfuel]|].
  exact (walk_visits_each_key_once m 3%nat Hinv Hfuel).
Defined.

(** ** Reachable maps *)

Lemma bind_Undef {A B} (c : M A) (f : A → M B) m :
  c m = Undef → (c ≫= f) m = Undef.
Proof. intros H. unfold mbind, M_bind. by rewrite H. Qed.

Lemma extend_overflow m :
  size m = capacity m → ¬ capacity m * 2 ≤ INT_MAX →
  extend_if_necessary m = Undef.
Proof.
  intros Hfull Hov. unfold extend_if_necessary.
  mstep reflexivity. mstep reflexivity.
  rewrite decide_True by done. mstep reflexivity.
  apply bind_Undef. unfold int_result, in_int.
  destruct (Z.leb_spec (capacity m * 2) INT_MAX); [done|].
  by rewrite andb_false_r.
Qed.

(** A call of [map_set] that returns did not overflow. *)
Lemma map_set_Ret_can_grow m k v m' :
  map_shape m → get_loop k (bucket m k) = None →
  map_set k v m = Ret tt m' → can_grow m.
Proof.
  intros Hs Habs Hset Hfull.
  destruct (decide (capacity m * 2 ≤ INT_MAX)) as [|Hov]; [done|].
  exfalso. unfold map_set in Hset.
  erewrite bind_Ret in Hset by by apply bucket_of_shape.
  erewrite bind_Ret in Hset by by rewrite load_elem_nat, bucket_lookup.
  rewrite (proj2 (set_loop_None k v _) Habs) in Hset.
  by erewrite bind_Undef in Hset by by apply extend_overflow.
Qed.

Lemma step_inv m m' :
  map_inv m → step m m' →
  map_inv m' ∧ (capacity m' = capacity m ∨ capacity m' = capacity m * 2).
Proof.
  intros Hinv [k v Hset|k v Hrem]; pose proof (inv_shape m Hinv) as Hs.
  - destruct (get_loop k (bucket m k)) as [v0|] eqn:E.
    + destruct (map_set_present m k v Hinv) as (m1 & Hset1 & ? & ? & _).
      { by rewrite E. }
      assert (m' = m1) as -> by congruence. auto.
    + pose proof (map_set_Ret_can_grow m k v m' Hs E Hset) as Hov.
      destruct (map_set_absent m k v Hinv Hov E)
        as (Hset1 & ? & _ & Hcap & _).
      assert (m' = linked (extended m) k v) as -> by congruence.
      split; [done|]. rewrite Hcap. destruct (decide _); auto.
  - destruct (get_loop k (bucket m k)) as [v0|] eqn:E.
    + destruct (map_remove_spec m k v0 Hinv E)
        as (m1 & c & Hrem1 & ? & ? & _).
      assert (m' = m1) as -> by congruence. auto.
    + rewrite map_remove_eq in Hrem by done.
      by rewrite (proj2 (remove_loop_None k _) E) in Hrem.
Qed.

Lemma reachable_inv m : reachable m → map_inv m.
Proof.
  unfold reachable. revert m. apply rtc_ind_r.
  - apply map_create_inv.
  - intros m1 m2 _ Hstep IH. by destruct (step_inv m1 m2 IH Hstep).
Qed.

Lemma steps_capacity m m' :
  map_inv m → rtc step m m' →
  ∃ d : nat, capacity m' = capacity m * 2 ^ Z.of_nat d.
Proof.
  intros Hinv H. revert Hinv.
  induction H as [m|m m1 m' Hstep _ IH]; intros Hinv.
  - exists 0%nat. simpl. lia.
  - destruct (step_inv m m1 Hinv Hstep) as [Hinv1 Hcap].
    destruct (IH Hinv1) as [d Hd].
    destruct Hcap as [Hcap|Hcap]; rewrite Hcap in Hd.
    + by exists d.
    + exists (S d). rewrite Nat2Z.inj_succ, Z.pow_succ_r by lia. lia.
Qed.

(** A key held by some cell is held by exactly one. *)
Lemma one_entry (l : list cell) (k : list byte) :
  NoDup (key <$> l) → k ∈ key <$> l →
  length (filter (λ c, key c = k) l) = 1%nat.
Proof.
  induction l as [|c l IH].
  - intros _ Hk. by apply elem_of_nil in Hk.
  - rewrite fmap_cons. intros [Hnotin Hnd]%NoDup_cons Hk.
    destruct (decide (key c = k)) as [<-|Hne].
    + rewrite filter_cons_True by done. simpl. f_equal.
      destruct (filter _ l) as [|c' l'] eqn:E; [done|].
      assert (c' ∈ filter (λ c0, key c0 = key c) l) as Hc'.
      { rewrite E. by left. }
      apply list_elem_of_filter in Hc' as [Heq Hc'].
      exfalso. apply Hnotin. rewrite <- Heq. by apply list_elem_of_fmap_2.
    + rewrite filter_cons_False by done.
      apply elem_of_cons in Hk as [?|?]; [congruence|]. by apply IH.
Qed.

(** C7. Every map obtained from [map_create] by completed calls of
    [map_set] and [map_remove] has its size at most its capacity; its
    capacity is a power of two, 1 at creation, that each further call
    keeps or doubles, so that it never shrinks; each key present is held
    by exactly one cell over all buckets, and every cell lies in the
    bucket whose index is the hash of its key modulo the capacity. *)
Theorem reachable_invariant m :
  reachable m →
  size m ≤ capacity m
  ∧ (∃ n : nat, capacity m = 2 ^ Z.of_nat n)
  ∧ capacity map_create = 1
  ∧ (∀ m', step m m' →
       capacity m' = capacity m ∨ capacity m' = capacity m * 2)
  ∧ (∀ m', rtc step m m' →
       ∃ d : nat, capacity m' = capacity m * 2 ^ Z.of_nat d)
  ∧ (∀ k, map_contains k m = Ret true m →
       length (filter (λ c, key c = strcpy k) (concat (elems m))) = 1%nat)
  ∧ (∀ (i : nat) curr c, elems m !! i = Some curr → c ∈ curr →
       hash (key c) mod capacity m = Z.of_nat i).
Proof.
  intros Hinv%reachable_inv.
  split; [apply (inv_load m Hinv)|]. split; [apply (inv_pow2 m Hinv)|].
  split; [done|]. split; [intros m' Hstep; by apply step_inv|].
  split; [intros m' Hsteps; by apply steps_capacity|]. split.
  - intros k Hin. apply one_entry; [apply (inv_nodup m Hinv)|].
    by apply map_contains_keys.
  - apply (inv_bucket m Hinv).
Qed.

Lemma reachable_invariant_witness :
  let m := Map [[]; [Cell ["b"%byte] 2]] 2 1 in
  reachable m
  ∧ size m ≤ capacity m
  ∧ (∃ n : nat, capacity m = 2 ^ Z.of_nat n)
  ∧ capacity map_create = 1
  ∧ (∀ m', step m m' →
       capacity m' = capacity m ∨ capacity m' = capacity m * 2)
  ∧ (∀ m', rtc step m m' →
       ∃ d : nat, capacity m' = capacity m * 2 ^ Z.of_nat d)
  ∧ (∀ k, map_contains k m = Ret true m →
       length (filter (λ c, key c = strcpy k) (concat (elems m))) = 1%nat)
  ∧ (∀ (i : nat) curr c, elems m !! i = Some curr → c ∈ curr →
       hash (key c) mod capacity m = Z.of_nat i).
Proof.
  intros m.
  assert (reachable m) as Hreach.
  { unfold reachable.
    eapply rtc_l; [apply (step_set _ _ ["a"%byte] 1); reflexivity|].
    eapply rtc_l; [apply (step_set _ _ ["b"%byte] 2); reflexivity|].
    eapply rtc_l; [apply (step_remove _ _ ["a"%byte] 1); reflexivity|].
    apply rtc_refl. }
  split; [exact Hreach|].
  exact (reachable_invariant m Hreach).
Defined.

(** * Further properties of [map.c] *)

(** ** The empty map *)

Lemma create_bucket k : bucket map_create k = [].
Proof. unfold bucket. simpl. by destruct (slot map_create k) as [|[|?]]. Qed.

(** X1. On the map [map_create] returns, [map_size] is 0, [map_contains]
    is false for every key, [map_first] is [NULL], the iteration meets no
    key, and [map_get] and [map_remove] fail for every key. *)
Theorem create_is_empty k fuel :
  map_size map_create = Ret 0 map_create
  ∧ map_contains k map_create = Ret false map_create
  ∧ map_first map_create = Ret [] map_create
  ∧ walk fuel map_create = Ret (Some []) map_create
  ∧ map_get k map_create = Abort map_create
  ∧ map_remove k map_create = Abort map_create.
Proof.
  pose proof map_create_inv as Hinv. pose proof (inv_shape _ Hinv) as Hs.
  split; [done|].
  assert (map_contains k map_create = Ret false map_create) as Hout.
  { rewrite map_contains_eq by done. by rewrite create_bucket. }
  split; [done|]. split; [done|].
  split; [by apply (walk_eq map_create fuel Hinv); simpl; lia|].
  rewrite map_get_eq, map_remove_eq by done. by rewrite create_bucket.
Qed.

(** ** Other keys *)

Lemma reads_same_lookup m m' k :
  map_shape m → map_shape m' →
  get_loop k (bucket m' k) = get_loop k (bucket m k) →
  reads_same k m m'.
Proof.
  intros Hs Hs' Heq. unfold reads_same.
  rewrite !map_contains_eq, !map_get_eq by done.
  rewrite !contains_get_loop, Heq.
  split; [by intros b [= <-]|].
  destruct (get_loop k (bucket m k)); split; try done. by intros v' [= <-].
Qed.

(** X2. [map_set(t, k, v)] changes nothing for any other key [k']: on
    return [map_contains(t, k')] answers as before and [map_get(t, k')]
    returns the same value, or fails as before. *)
Theorem set_keeps_other_keys m k v k' :
  map_inv m → can_grow m → streq k k' = false →
  ∃ m', map_set k v m = Ret tt m' ∧ reads_same k' m m'.
Proof.
  intros Hinv Hov Hne.
  destruct (map_set_spec m k v Hinv Hov) as (m' & Hset & Hinv' & _ & Hframe).
  exists m'. split; [done|].
  apply reads_same_lookup; [by apply inv_shape..|]. by apply Hframe.
Qed.

Lemma set_keeps_other_keys_witness :
  let m := Map [[Cell ["a"%byte] 1]; [Cell ["b"%byte] 2]] 2 2 in
  let k := ["c"%byte] in
  let k' := ["b"%byte] in
  (map_inv m ∧ can_grow m ∧ streq k k' = false)
  ∧ ∃ m', map_set k 3 m = Ret tt m' ∧ reads_same k' m m'.
Proof.
  intros m k k'.
  assert (map_inv m) as Hinv by check_inv.
  assert (can_grow m) as Hov by (apply can_grow_small; vm_compute; reflexivity).
  assert (streq k k' = false) as Hne by reflexivity.
  split; [by repeat (split; [assumption|])|].
  exact (set_keeps_other_keys m k 3 k' Hinv Hov Hne).
Defined.

Lemma streq_trans_false k k' s :
  streq s k = true → streq k k' = false → streq s k' = false.
Proof.
  intros H1%streq_strcpy H2%streq_false. apply streq_false. congruence.
Qed.

(** X3. [map_remove(t, k)] of a present key leaves the capacity as it was
    (the map never shrinks) and changes nothing for any other key. *)
Theorem remove_keeps_other_keys m k k' :
  map_inv m → map_contains k m = Ret true m → streq k k' = false →
  ∃ v m', map_remove k m = Ret v m'
    ∧ capacity m' = capacity m
    ∧ reads_same k' m m'.
Proof.
  intros Hinv Hin Hne. pose proof (inv_shape m Hinv) as Hs.
  apply map_contains_true in Hin as [v Hget]; [|done].
  destruct (map_remove_spec m k v Hinv Hget)
    as (m' & c & Hrem & Hinv' & Hcap & _ & _ & Hk & Hperm).
  exists v, m'. split; [done|]. split; [done|].
  apply reads_same_lookup; [done|by apply inv_shape|]. symmetry.
  apply (lookup_perm_cons m' m c); [done..|].
  by eapply streq_trans_false.
Qed.

Lemma remove_keeps_other_keys_witness :
  let m := Map [[Cell ["e"%byte] 5; Cell ["a"%byte] 1]; []; [];
                [Cell ["b"%byte] 2]] 4 3 in
  let k := ["e"%byte] in
  let k' := ["a"%byte] in
  (map_inv m ∧ map_contains k m = Ret true m ∧ streq k k' = false)
  ∧ ∃ v m', map_remove k m = Ret v m'
      ∧ capacity m' = capacity m
      ∧ reads_same k' m m'.
Proof.
  intros m k k'.
  assert (map_inv m) as Hinv by check_inv.
  assert (map_contains k m = Ret true m) as Hin by reflexivity.
  assert (streq k k' = false) as Hne by reflexivity.
  split; [by repeat (split; [assumption|])|].
  exact (remove_keeps_other_keys m k k' Hinv Hin Hne).
Defined.

(** ** Size *)

(** X4. On a map under the invariant whose due doubling stays within
    [int], [map_set] on a key that is not present makes [map_size] one
    more. *)
Theorem set_new_key_size m k v :
  map_inv m → can_grow m → map_contains k m = Ret false m →
  ∃ n m', map_size m = Ret n m
    ∧ map_set k v m = Ret tt m'
    ∧ map_size m' = Ret (n + 1) m'.
Proof.
  intros Hinv Hov Hout.
  apply map_contains_false in Hout; [|by apply inv_shape].
  destruct (map_set_absent m k v Hinv Hov Hout) as (Hset & _ & Hsz & _).
  eexists (size m), _. split; [done|]. split; [done|].
  unfold map_size, load_size. by rewrite Hsz.
Qed.

Lemma set_new_key_size_witness :
  let m := Map [[Cell ["a"%byte] 1]; [Cell ["b"%byte] 2]] 2 2 in
  let k := ["c"%byte] in
  (map_inv m ∧ can_grow m ∧ map_contains k m = Ret false m)
  ∧ ∃ n m', map_size m = Ret n m
      ∧ map_set k 3 m = Ret tt m'
      ∧ map_size m' = Ret (n + 1) m'.
Proof.
  intros m k.
  assert (map_inv m) as Hinv by check_inv.
  assert (can_grow m) as Hov by (apply can_grow_small; vm_compute; reflexivity).
  assert (map_contains k m = Ret false m) as Hout by reflexivity.
  split; [by repeat (split; [assumption|])|].
  exact (set_new_key_size m k 3 Hinv Hov Hout).
Defined.

(** ** [map_set] then [map_remove] *)

(** X5. On a map under the invariant, for a key that is present or when
    a due doubling of the capacity stays within [int]: after
    [map_set(t, k, v)], [map_remove(t, k)] returns [v] and leaves [k]
    absent; every other key is as before the two calls; the size is the
    one before them when [k] was new, one less when it was present; the
    capacity does not go back under what it was. *)
Theorem set_then_remove m k v :
  map_inv m → can_set m k →
  ∃ m1 m2, map_set k v m = Ret tt m1
    ∧ map_remove k m1 = Ret v m2
    ∧ map_contains k m2 = Ret false m2
    ∧ (∀ k', streq k k' = false → reads_same k' m m2)
    ∧ (map_contains k m = Ret false m → size m2 = size m)
    ∧ (map_contains k m = Ret true m → size m2 = size m - 1)
    ∧ capacity m ≤ capacity m2.
Proof.
  intros Hinv Hcan. pose proof (inv_shape m Hinv) as Hs.
  destruct (map_set_spec_gen m k v Hinv Hcan)
    as (m1 & Hset & Hinv1 & Hget1 & Hframe1).
  destruct (map_remove_spec m1 k v Hinv1 Hget1)
    as (m2 & c & Hrem & Hinv2 & Hcap2 & Hsz2 & Habs2 & Hk & Hperm).
  pose proof (inv_shape m2 Hinv2) as Hs2.
  exists m1, m2. split; [done|]. split; [done|].
  split; [by apply map_contains_false|]. split; [|split; [|split]].
  - intros k' Hne. apply reads_same_lookup; [done..|].
    rewrite <- (Hframe1 k' Hne). symmetry.
    apply (lookup_perm_cons m2 m1 c); [done..|].
    by eapply streq_trans_false.
  - intros Hout. pose proof (Hcan Hout) as Hov.
    apply map_contains_false in Hout; [|done].
    destruct (map_set_absent m k v Hinv Hov Hout) as (Hset' & _ & Hsz1 & _).
    assert (m1 = linked (extended m) k v) as Heq by congruence.
    rewrite <- Heq in Hsz1. lia.
  - intros Hin. apply map_contains_true in Hin; [|done].
    destruct (map_set_present m k v Hinv Hin)
      as (m1' & Hset' & _ & _ & Hsz1 & _).
    assert (m1 = m1') as Heq by congruence.
    rewrite <- Heq in Hsz1. lia.
  - rewrite Hcap2.
    assert (step m m1) as Hstep by by eapply step_set.
    pose proof (shape_pos m Hs).
    destruct (step_inv m m1 Hinv Hstep) as [_ [->| ->]]; lia.
Qed.

Lemma set_then_remove_witness :
  let m := Map [[Cell ["a"%byte] 1]; [Cell ["b"%byte] 2]] 2 2 in
  let k := ["c"%byte] in
  (map_inv m ∧ can_set m k)
  ∧ ∃ m1 m2, map_set k 3 m = Ret tt m1
      ∧ map_remove k m1 = Ret 3 m2
      ∧ map_contains k m2 = Ret false m2
      ∧ (∀ k', streq k k' = false → reads_same k' m m2)
      ∧ (map_contains k m = Ret false m → size m2 = size m)
      ∧ (map_contains k m = Ret true m → size m2 = size m - 1)
      ∧ capacity m ≤ capacity m2.
Proof.
  intros m k.
  assert (map_inv m) as Hinv by check_inv.
  assert (can_set m k) as Hcan
    by (intros _; apply can_grow_small; vm_compute; reflexivity).
  split; [by split|].
  exact (set_then_remove m k 3 Hinv Hcan).
Defined.

(** ** [map_first] *)

Lemma first_chain_nil (a : list (list cell)) :
  first_chain a = [] ↔ concat a = [].
Proof.
  destruct (first_chain_spec a) as [[H1 H2]|(j & _ & Hne & Hcat)].
  - by rewrite H1, H2.
  - split; [done|]. rewrite Hcat. intros [? _]%app_eq_nil. done.
Qed.

(** X6. [map_first] returns [NULL] exactly when the map holds no entry;
    otherwise it returns a key that is present. *)
Theorem first_null_iff_empty m :
  map_inv m →
  ∃ p, map_first m = Ret p m
    ∧ (p = [] ↔ size m = 0)
    ∧ (p ≠ [] → map_contains (key_at p) m = Ret true m).
Proof.
  intros Hinv. pose proof (inv_shape m Hinv) as Hs.
  exists (first_chain (elems m)). split; [|split].
  - unfold map_first. rewrite (scan_from_eq 0) by (done || lia).
    by rewrite drop_0.
  - rewrite first_chain_nil, (inv_size m Hinv). unfold all_cells.
    destruct (concat (elems m)); simpl; split; (done || lia).
  - intros Hne.
    destruct (first_chain_spec (elems m)) as [[? _]|(j & Hj & _ & _)]; [done|].
    destruct (first_chain (elems m)) as [|c l] eqn:E; [done|]. simpl.
    apply map_contains_true; [done|]. exists (value c).
    apply lookup_cell; [done| |apply streq_strcpy; done].
    apply elem_of_concat. exists j, (c :: l). split; [done|by left].
Qed.

Lemma first_null_iff_empty_witness :
  let m := Map [[]; [Cell ["b"%byte] 2]] 2 1 in
  map_inv m
  ∧ ∃ p, map_first m = Ret p m
      ∧ (p = [] ↔ size m = 0)
      ∧ (p ≠ [] → map_contains (key_at p) m = Ret true m).
Proof.
  intros m.
  assert (map_inv m) as Hinv by check_inv.
  split; [exact Hinv|].
  exact (first_null_iff_empty m Hinv).
Defined.

(** ** Undefined behaviour *)

Lemma map_set_overflow m k v :
  map_shape m → get_loop k (bucket m k) = None →
  size m = capacity m → INT_MAX < capacity m * 2 →
  map_set k v m = Undef.
Proof.
  intros Hs Habs Hfull Hov. unfold map_set. enter_bucket.
  rewrite (proj2 (set_loop_None k v _) Habs).
  apply bind_Undef, extend_overflow; [done|lia].
Qed.



(** ** The bucket index *)

Lemma hash_loop_range h k :
  0 ≤ h < 2 ^ 32 → 0 ≤ hash_loop h k < 2 ^ 32.
Proof.
  revert h. induction k as [|c k IH]; intros h Hh; simpl; [done|].
  destruct (is_nul c); [done|]. apply IH.
  rewrite hash_step_wrap. unfold hash_step. apply Z.mod_pos_bound. lia.
Qed.

(** X8. [hash] stays within [unsigned int], and the bucket index
    [hash(key) % m->capacity] every function starts from is that remainder,
    an index of the bucket array. *)
Theorem bucket_index_in_range m k :
  map_inv m →
  0 ≤ hash k < 2 ^ 32
  ∧ ∃ b, bucket_of k m = Ret b m
      ∧ b = hash k mod capacity m
      ∧ 0 ≤ b < Z.of_nat (length (elems m)).
Proof.
  intros Hinv. pose proof (inv_shape m Hinv) as Hs.
  split; [apply hash_loop_range; by vm_compute|].
  exists (Z.of_nat (slot m k)). split; [by apply bucket_of_shape|].
  pose proof (slot_lt m k Hs).
  pose proof (Z.mod_pos_bound (hash k) _ (shape_pos m Hs)).
  unfold slot in *. split; lia.
Qed.

Lemma bucket_index_in_range_witness :
  let m := Map [[Cell ["a"%byte] 1]; [Cell ["b"%byte] 2]] 2 2 in
  let k := ["c"%byte] in
  map_inv m
  ∧ 0 ≤ hash k < 2 ^ 32
  ∧ ∃ b, bucket_of k m = Ret b m
      ∧ b = hash k mod capacity m
      ∧ 0 ≤ b < Z.of_nat (length (elems m)).
Proof.
  intros m k.
  assert (map_inv m) as Hinv by check_inv.
  split; [exact Hinv|].
  exact (bucket_index_in_range m k Hinv).
Defined.

(** ** Iteration after a removal *)

Lemma filter_not_elem (x : list byte) (l : list (list byte)) :
  x ∉ l → filter (λ y, y ≠ x) l = l.
Proof.
  induction l as [|y l IH]; [done|].
  intros [Hne Hnotin]%not_elem_of_cons.
  rewrite filter_cons_True by done. by rewrite IH.
Qed.

Lemma filter_middle (A B : list cell) (c : cell) :
  NoDup (key <$> A ++ c :: B) →
  key <$> A ++ B = filter (λ k', k' ≠ key c) (key <$> A ++ c :: B).
Proof.
  rewrite !fmap_app, fmap_cons.
  intros (_ & Hdisj & [Hnotin _]%NoDup_cons)%NoDup_app.
  rewrite filter_app, filter_cons_False by (by intros ?).
  rewrite !filter_not_elem; [done|done|].
  intros Hin. apply (Hdisj _ Hin). by left.
Qed.

(** X9. After [map_remove(t, k)] the iteration meets the keys it met
    before, in the same order, without [k]. *)
Theorem remove_keeps_order m k fuel :
  map_inv m → map_contains k m = Ret true m →
  (Z.to_nat (size m) ≤ fuel)%nat →
  ∃ v m' ks, map_remove k m = Ret v m'
    ∧ walk fuel m = Ret (Some ks) m
    ∧ walk fuel m' = Ret (Some (filter (λ k', k' ≠ strcpy k) ks)) m'.
Proof.
  intros Hinv Hin Hfuel. pose proof (inv_shape m Hinv) as Hs.
  apply map_contains_true in Hin as [v Hget]; [|done].
  destruct (remove_loop k (bucket m k)) as [[v' curr']|] eqn:E; last first.
  { apply remove_loop_None in E. congruence. }
  destruct (map_remove_spec m k v Hinv Hget)
    as (m' & c0 & Hrem & Hinv' & _ & Hsz & _).
  assert (m' = Map (<[slot m k := curr']> (elems m)) (capacity m) (size m - 1))
    as Hm'.
  { rewrite map_remove_eq, E in Hrem by done.
    destruct (in_int _); [|done]. congruence. }
  apply remove_loop_Some in E as (_ & l1 & c & l2 & Hb & -> & Hk).
  destruct (bucket_split m k Hs) as (pre & post & Hall & Hall').
  specialize (Hall' (l1 ++ l2) (capacity m) (size m - 1)).
  rewrite <- Hm' in Hall'. rewrite Hb in Hall.
  pose proof (inv_size m Hinv). pose proof (inv_size m' Hinv').
  exists v, m', (all_keys m). split; [done|].
  split; [apply walk_eq; [done|lia]|].
  rewrite walk_eq by (done || lia). do 2 f_equal.
  assert (key c = strcpy k) as Hkc.
  { apply streq_strcpy in Hk. rewrite <- Hk. symmetry.
    apply (inv_key m Hinv). rewrite Hall.
    rewrite !elem_of_app, elem_of_cons. auto. }
  pose proof (inv_nodup m Hinv) as Hnd. unfold all_keys in *.
  rewrite Hall, Hall', <- Hkc. rewrite Hall in Hnd.
  replace (pre ++ (l1 ++ c :: l2) ++ post)
    with ((pre ++ l1) ++ c :: (l2 ++ post)) in *
    by by rewrite <- !app_assoc.
  replace (pre ++ (l1 ++ l2) ++ post) with ((pre ++ l1) ++ (l2 ++ post))
    by by rewrite <- !app_assoc.
  by apply filter_middle.
Qed.

Lemma remove_keeps_order_witness :
  let m := Map [[Cell ["e"%byte] 5; Cell ["a"%byte] 1]; []; [];
                [Cell ["b"%byte] 2]] 4 3 in
  let k := ["a"%byte] in
  (map_inv m ∧ map_contains k m = Ret true m ∧ (Z.to_nat (size m) ≤ 3)%nat)
  ∧ ∃ v m' ks, map_remove k m = Ret v m'
      ∧ walk 3 m = Ret (Some ks) m
      ∧ walk 3 m' = Ret (Some (filter (λ k', k' ≠ strcpy k) ks)) m'.
Proof.
  intros m k.
  assert (map_inv m) as Hinv by check_inv.
  assert (map_contains k m = Ret true m) as Hin by reflexivity.
  assert (Z.to_nat (size m) ≤ 3)%nat as Hfuel by (vm_compute; lia).
  split; [by repeat (split; [assumption|])|].
  exact (remove_keeps_order m k 3%nat Hinv Hin Hfuel).
Defined.

(** * Properties of the shell, [cli.c] *)

(** ** [read_cmd] *)

Lemma read_chars_line line t rest eof n :
  Forall (λ c, ends_line c = false) line → ends_line t = true →
  (length line < n)%nat →
  read_chars n (Stdin (line ++ t :: rest) eof) = (Some line, Stdin rest eof).
Proof.
  intros Hline Ht. revert n.
  induction Hline as [|c line Hc _ IH]; intros n Hn.
  - destruct n as [|n]; [simpl in Hn; lia|]. simpl. by rewrite Ht.
  - destruct n as [|n]; [simpl in Hn; lia|]. simpl in *.
    rewrite Hc, IH by lia. done.
Qed.

Lemma read_chars_overrun line tail eof n :
  Forall (λ c, ends_line c = false) line → length line = n →
  read_chars n (Stdin (line ++ tail) eof) = (None, Stdin tail eof).
Proof.
  intros Hline. revert n.
  induction Hline as [|c line Hc _ IH]; intros n Hn; simpl in Hn; subst n.
  - done.
  - simpl. by rewrite Hc, IH.
Qed.

Lemma drain_line line t rest eof fuel :
  Forall (λ c, ends_line c = false) line → ends_line t = true →
  (length line < fuel)%nat →
  drain fuel (Stdin (line ++ t :: rest) eof) = Some (Stdin rest eof).
Proof.
  intros Hline Ht. revert fuel.
  induction Hline as [|c line Hc _ IH]; intros fuel Hn.
  - destruct fuel as [|fuel]; [simpl in Hn; lia|]. simpl. by rewrite Ht.
  - destruct fuel as [|fuel]; [simpl in Hn; lia|]. simpl in *.
    rewrite Hc. apply IH. lia.
Qed.

(** X10. [read_cmd] on a line of at most 80 characters, ended by a newline
    or a NUL, prints one prompt and returns true with the line in [dest],
    the input resuming after the terminator. *)
Theorem read_cmd_accepts_line line t rest fuel :
  Forall (λ c, ends_line c = false) line → ends_line t = true →
  (length line ≤ MAX_LINE)%nat →
  read_cmd (S fuel) (Stdin (line ++ t :: rest) false)
  = Some (Line line, Stdin rest false, [Printf "> " []]).
Proof.
  intros Hline Ht Hlen. cbn [read_cmd at_eof].
  rewrite read_chars_line by (done || lia). done.
Qed.

Lemma read_cmd_accepts_line_witness :
  let line := lit "get a" in
  let t := x0a in
  (Forall (λ c, ends_line c = false) line ∧ ends_line t = true
   ∧ (length line ≤ MAX_LINE)%nat)
  ∧ read_cmd 1 (Stdin (line ++ t :: lit "ls") false)
    = Some (Line line, Stdin (lit "ls") false, [Printf "> " []]).
Proof.
  intros line t.
  assert (Forall (λ c, ends_line c = false) line) as Hline
    by (repeat constructor).
  assert (ends_line t = true) as Ht by reflexivity.
  assert (length line ≤ MAX_LINE)%nat as Hlen by (vm_compute; lia).
  split; [by repeat (split; [assumption|])|].
  exact (read_cmd_accepts_line line t (lit "ls") 0 Hline Ht Hlen).
Defined.

(** X11. [read_cmd] on a line of more than 80 characters prints the
    prompt and the error message, drops the whole line and goes on with
    the next one. *)
Theorem read_cmd_skips_long_line line t rest fuel :
  Forall (λ c, ends_line c = false) line → ends_line t = true →
  (MAX_LINE < length line)%nat → (length line ≤ fuel)%nat →
  read_cmd (S fuel) (Stdin (line ++ t :: rest) false)
  = '(r, s, out) ← read_cmd fuel (Stdin rest false);
    Some (r, s, Printf "> " []
                :: Printf "    error; line too long (> 80)\n" [] :: out).
Proof.
  intros Hline Ht Hlong Hfuel. cbn [read_cmd at_eof].
  rewrite <- (take_drop (S MAX_LINE) line), <- app_assoc.
  rewrite (read_chars_overrun (take (S MAX_LINE) line)).
  - rewrite drain_line; [done| |done|].
    + by apply Forall_drop.
    + rewrite length_drop. unfold MAX_LINE in *. lia.
  - by apply Forall_take.
  - rewrite length_take. unfold MAX_LINE in *. lia.
Qed.

Lemma read_cmd_skips_long_line_witness :
  let line := replicate 81 "a"%byte in
  let t := x0a in
  (Forall (λ c, ends_line c = false) line ∧ ends_line t = true
   ∧ (MAX_LINE < length line)%nat ∧ (length line ≤ 81)%nat)
  ∧ read_cmd 82 (Stdin (line ++ t :: lit "q" ++ [x0a]) false)
    = '(r, s, out) ← read_cmd 81 (Stdin (lit "q" ++ [x0a]) false);
      Some (r, s, Printf "> " []
                  :: Printf "    error; line too long (> 80)\n" [] :: out).
Proof.
  intros line t.
  assert (Forall (λ c, ends_line c = false) line) as Hline
    by (by apply Forall_replicate).
  assert (ends_line t = true) as Ht by reflexivity.
  assert (MAX_LINE < length line)%nat as Hlong by (vm_compute; lia).
  assert (length line ≤ 81)%nat as Hfuel by (vm_compute; lia).
  split; [by repeat (split; [assumption|])|].
  exact (read_cmd_skips_long_line line t _ 81 Hline Ht Hlong Hfuel).
Defined.

(** Once the input is exhausted, no line terminator is ever read. *)
Lemma drain_exhausted fuel eof : drain fuel (Stdin [] eof) = None.
Proof.
  revert eof. induction fuel as [|fuel IH]; intros eof; [done|].
  simpl. apply IH.
Qed.

Lemma drain_unterminated fuel s :
  Forall (λ c, ends_line c = false) (pending s) → drain fuel s = None.
Proof.
  revert s. induction fuel as [|fuel IH]; intros [l eof] Hl; [done|].
  simpl in *. destruct l as [|c l]; simpl.
  - apply drain_exhausted.
  - apply Forall_cons in Hl as [-> Hl]. by apply IH.
Qed.

Lemma drain_Some fuel s s' :
  drain fuel s = Some s' → at_eof s' = at_eof s.
Proof.
  revert s. induction fuel as [|fuel IH]; intros [l eof]; [done|].
  simpl. destruct l as [|c l]; simpl.
  - by rewrite drain_exhausted.
  - destruct (ends_line c); [by intros [= <-]|]. intros H. by apply IH in H.
Qed.

Lemma read_chars_unterminated n s :
  Forall (λ c, ends_line c = false) (pending s) →
  ∃ s1, read_chars n s = (None, s1)
    ∧ Forall (λ c, ends_line c = false) (pending s1).
Proof.
  revert s. induction n as [|n IH]; intros [l eof] Hl; [by eexists|].
  simpl in *. destruct l as [|c l]; simpl.
  - destruct (IH (Stdin [] true)) as (s1 & -> & ?); [done|]. by eexists.
  - apply Forall_cons in Hl as [-> Hl].
    destruct (IH (Stdin l eof)) as (s1 & -> & ?); [done|]. by eexists.
Qed.

Lemma read_chars_exhausted n eof :
  ∃ eof', read_chars n (Stdin [] eof) = (None, Stdin [] eof').
Proof.
  revert eof. induction n as [|n IH]; intros eof; [by eexists|].
  simpl. destruct (IH true) as [eof' ->]. by eexists.
Qed.

Lemma read_chars_Some n s dest s' :
  read_chars n s = (Some dest, s') → at_eof s' = at_eof s.
Proof.
  revert s dest s'. induction n as [|n IH]; intros [l eof] dest s'; [done|].
  simpl. destruct l as [|c l]; simpl.
  - by destruct (read_chars_exhausted n true) as [eof' ->].
  - destruct (ends_line c); [by intros [= _ <-]|].
    destruct (read_chars n (Stdin l eof)) as [[d|] s1] eqn:E; [|done].
    intros [= _ <-]. by apply IH in E.
Qed.

Lemma read_chars_None n s s1 :
  read_chars n s = (None, s1) → pending s1 = [] ∨ at_eof s1 = at_eof s.
Proof.
  revert s s1. induction n as [|n IH]; intros [l eof] s1; simpl.
  - intros [= <-]. by right.
  - destruct l as [|c l]; simpl.
    + destruct (read_chars_exhausted n true) as [eof' ->].
      intros [= <-]. by left.
    + destruct (ends_line c); [done|].
      destruct (read_chars n (Stdin l eof)) as [[d|] s2] eqn:E; [done|].
      intros [= <-]. by apply IH in E.
Qed.

Lemma read_cmd_open fuel s :
  at_eof s = false →
  match read_cmd fuel s with
  | None => True
  | Some (r, s', _) => r ≠ Closed ∧ at_eof s' = false
  end
  ∧ (Forall (λ c, ends_line c = false) (pending s) → read_cmd fuel s = None).
Proof.
  revert s. induction fuel as [|fuel IH]; intros s Heof; [done|].
  cbn [read_cmd]. rewrite Heof.
  destruct (read_chars (S MAX_LINE) s) as [[dest|] s1] eqn:E.
  - split.
    + split; [done|]. by rewrite (read_chars_Some _ _ _ _ E).
    + intros Hl.
      destruct (read_chars_unterminated (S MAX_LINE) s Hl) as (? & ? & _).
      congruence.
  - destruct (drain fuel s1) as [s2|] eqn:Ed; simpl; [|done].
    assert (at_eof s2 = false) as Heof2.
    { rewrite (drain_Some _ _ _ Ed).
      destruct (read_chars_None _ _ _ E) as [Hnil|Heq]; [|congruence].
      destruct s1 as [l1 e1]. simpl in Hnil. subst l1.
      by rewrite drain_exhausted in Ed. }
    destruct (IH s2 Heof2) as [IH1 _].
    split.
    + destruct (read_cmd fuel s2) as [[[r s3] out]|]; simpl; done.
    + intros Hl.
      destruct (read_chars_unterminated (S MAX_LINE) s Hl) as (s1' & E' & Hl1).
      assert (s1' = s1) as -> by congruence.
      by rewrite (drain_unterminated fuel s1 Hl1) in Ed.
Qed.

(** X12. [read_cmd] never reports the end of the input: called before the
    end-of-file indicator is set, it returns true with a line or does not
    return at all; and when no newline or NUL is left in the input, the
    empty input included, it does not return, whatever the fuel. *)
Theorem read_cmd_never_closes fuel s :
  at_eof s = false →
  match read_cmd fuel s with
  | None => True
  | Some (r, s', _) => r ≠ Closed ∧ at_eof s' = false
  end
  ∧ (Forall (λ c, ends_line c = false) (pending s) → read_cmd fuel s = None).
Proof. apply read_cmd_open. Qed.

Lemma read_cmd_never_closes_witness :
  let s := Stdin (lit "size") false in
  at_eof s = false
  ∧ match read_cmd 200 s with
    | None => True
    | Some (r, s', _) => r ≠ Closed ∧ at_eof s' = false
    end
  ∧ (Forall (λ c, ends_line c = false) (pending s) → read_cmd 200 s = None).
Proof.
  intros s. split; [reflexivity|].
  exact (read_cmd_never_closes 200 s eq_refl).
Defined.

(** ** [strtok] *)

(** A token: at least one character, none of them a space or a NUL. *)
Lemma take_token_space t rest :
  Forall (λ c, is_space c = false ∧ is_nul c = false) t →
  take_token (t ++ " "%byte :: rest) = (t, rest).
Proof.
  induction 1 as [|c t [Hs Hn] _ IH]; simpl; [done|].
  by rewrite Hn, Hs, IH.
Qed.

Lemma take_token_end t :
  Forall (λ c, is_space c = false ∧ is_nul c = false) t →
  take_token t = (t, []).
Proof.
  induction 1 as [|c t [Hs Hn] _ IH]; simpl; [done|].
  by rewrite Hn, Hs, IH.
Qed.

Lemma strtok_space t rest :
  t ≠ [] → Forall (λ c, is_space c = false ∧ is_nul c = false) t →
  strtok (t ++ " "%byte :: rest) = (Some t, rest).
Proof.
  intros Hne Ht. unfold strtok.
  destruct t as [|c t]; [done|]. pose proof Ht as Ht'.
  apply Forall_cons in Ht as [[Hs Hn] _].
  rewrite <- app_comm_cons. cbn [skip_spaces]. rewrite Hs, Hn.
  rewrite app_comm_cons. by rewrite take_token_space.
Qed.

Lemma strtok_end t :
  t ≠ [] → Forall (λ c, is_space c = false ∧ is_nul c = false) t →
  strtok t = (Some t, []).
Proof.
  intros Hne Ht. unfold strtok.
  destruct t as [|c t]; [done|]. pose proof Ht as Ht'.
  apply Forall_cons in Ht as [[Hs Hn] _].
  cbn [skip_spaces]. rewrite Hs, Hn. by rewrite take_token_end.
Qed.

Lemma strcpy_token t :
  Forall (λ c, is_space c = false ∧ is_nul c = false) t → strcpy t = t.
Proof.
  induction 1 as [|c t [Hs Hn] _ IH]; simpl; [done|]. by rewrite Hn, IH.
Qed.

Lemma parse_s_token t :
  t ≠ [] → Forall (λ c, is_space c = false ∧ is_nul c = false) t →
  ∀ cmd, parse_s t cmd = (Some t, []).
Proof.
  intros Hne Ht cmd. unfold parse_s. rewrite strtok_end by done.
  by rewrite strcpy_token.
Qed.

Lemma parse_ss_tokens t1 t2 :
  t1 ≠ [] → Forall (λ c, is_space c = false ∧ is_nul c = false) t1 →
  t2 ≠ [] → Forall (λ c, is_space c = false ∧ is_nul c = false) t2 →
  ∀ cmd, parse_ss (t1 ++ " "%byte :: t2) cmd = (Some (t1, t2), []).
Proof.
  intros Hne1 Ht1 Hne2 Ht2 cmd. unfold parse_ss.
  rewrite strtok_space, strtok_end by done.
  by rewrite !strcpy_token.
Qed.

(** ** [run_cmd] without a map *)

Lemma cmd_no_map :
  cmd_size None = ((ensure_exists None).2, Running None)
  ∧ (∀ fuel, cmd_ls fuel None = ((ensure_exists None).2, Running None))
  ∧ (∀ k, cmd_contains k None = ((ensure_exists None).2, Running None))
  ∧ (∀ k v p, cmd_set k v p None = ((ensure_exists None).2, Running None))
  ∧ (∀ k, cmd_get k None = ((ensure_exists None).2, Running None))
  ∧ (∀ k, cmd_remove k None = ((ensure_exists None).2, Running None)).
Proof. done. Qed.

Lemma run_cmd_none fuel valp line :
  ∃ out, run_cmd fuel valp line None = (out, Running None)
    ∨ run_cmd fuel valp line None = (out, Running (Some map_create))
    ∨ run_cmd fuel valp line None = (out, Exited 0).
Proof.
  unfold run_cmd, parse, parse_s, parse_ss.
  repeat match goal with
         | |- context [strtok ?s] => destruct (strtok s) as [[?|] ?]
         | |- context [if ?b then _ else _] => destruct b
         | |- context [let (_, _) := ?p in _] => destruct p
         end;
    simpl; eauto.
Qed.

(** X13. As long as no map was created ([m] is [NULL]), [run_cmd] calls no
    function of [map.c] on it: whatever the line, it returns with [m] still
    [NULL] or, on [init], with the empty map, or it exits with code 0. *)
Theorem run_cmd_without_map fuel valp line :
  ∃ out, run_cmd fuel valp line None = (out, Running None)
    ∨ run_cmd fuel valp line None = (out, Running (Some map_create))
    ∨ run_cmd fuel valp line None = (out, Exited 0).
Proof. apply run_cmd_none. Qed.


(** ** The [ls] command *)

(** [map_next] from a cell of bucket [i]: the cell after it, in the order
    of the buckets. *)
Lemma map_next_spec m (i : nat) pre c next :
  map_inv m → elems m !! i = Some (pre ++ c :: next) →
  ∃ q, map_next (c :: next) m = Ret q m
    ∧ ((q = [] ∧ next ++ concat (drop (S i) (elems m)) = [])
       ∨ ∃ (j : nat) pre',
           q ≠ [] ∧ elems m !! j = Some (pre' ++ q)
           ∧ q ++ concat (drop (S j) (elems m))
             = next ++ concat (drop (S i) (elems m))).
Proof.
  intros Hinv Hi. pose proof (inv_shape m Hinv) as Hs.
  destruct next as [|c' next'].
  - assert (slot m (key c) = i) as Hslot.
    { unfold slot. rewrite (inv_bucket m Hinv i _ c Hi); [lia|].
      apply elem_of_app. right. by left. }
    exists (first_chain (drop (S i) (elems m))). split.
    { simpl. mstep (by apply bucket_of_shape).
      rewrite Hslot. replace (Z.of_nat i + 1) with (Z.of_nat (S i)) by lia.
      apply scan_from_eq; [done|]. apply lookup_lt_Some in Hi. lia. }
    destruct (first_chain_spec (drop (S i) (elems m)))
      as [[Hq Hcat]|(j & Hj & Hq & Hcat)]; [by left|].
    right. exists (S i + j)%nat, []. split; [done|].
    rewrite lookup_drop in Hj. split; [done|].
    rewrite drop_drop in Hcat.
    replace (S i + S j)%nat with (S (S i + j)) in Hcat by lia. by rewrite Hcat.
  - exists (c' :: next'). split; [done|]. right.
    exists i, (pre ++ [c]). split; [done|]. by rewrite <- app_assoc.
Qed.

Lemma map_get_cell m (i : nat) pre c next :
  map_inv m → elems m !! i = Some (pre ++ c :: next) →
  map_get (key c) m = Ret (value c) m.
Proof.
  intros Hinv Hi. apply map_get_found; [by apply inv_shape|].
  apply lookup_cell; [done| |by apply streq_strcpy].
  apply elem_of_concat. exists i, (pre ++ c :: next). split; [done|].
  apply elem_of_app. right. by left.
Qed.

Lemma ls_rest_nil fuel m : ls_rest fuel [] m = Ret (Some []) m.
Proof. by destruct fuel. Qed.

Lemma ls_rest_eq m : map_inv m → ∀ fuel p (i : nat) pre,
  elems m !! i = Some (pre ++ p) → p ≠ [] →
  (length (p ++ concat (drop (S i) (elems m))) ≤ fuel)%nat →
  ls_rest fuel p m
  = Ret (Some ((λ c, Printf ", %s:%s" [AStr (key c); AVal (value c)])
               <$> p ++ concat (drop (S i) (elems m)))) m.
Proof.
  intros Hinv. induction fuel as [|fuel IH]; intros p i pre Hi Hp Hfuel.
  { destruct p; [done|]. simpl in Hfuel. lia. }
  destruct p as [|c next]; [done|].
  destruct (map_next_spec m i pre c next Hinv Hi)
    as (q & Hnext & [[-> Hnil]|(j & pre' & Hq & Hj & Heq)]).
  - cbn [ls_rest]. mstep (by eapply map_get_cell). mstep (exact Hnext).
    mstep (by apply ls_rest_nil).
    rewrite <- app_comm_cons, Hnil. done.
  - cbn [ls_rest]. mstep (by eapply map_get_cell). mstep (exact Hnext).
    rewrite <- app_comm_cons in Hfuel |- *. rewrite <- Heq in Hfuel |- *.
    erewrite bind_Ret; last first.
    { apply (IH q j pre'); [done|done|]. simpl in Hfuel. lia. }
    done.
Qed.

Lemma ls_entries_eq m fuel :
  map_inv m → (length (all_cells m) ≤ fuel)%nat →
  ls_entries fuel m = Ret (Some (ls_events (all_cells m))) m.
Proof.
  intros Hinv Hfuel. pose proof (inv_shape m Hinv) as Hs.
  unfold ls_entries, map_first.
  mstep (apply (scan_from_eq 0); [done|lia]).
  rewrite drop_0. unfold all_cells in *.
  destruct (first_chain_spec (elems m)) as [[Hq Hcat]|(j & Hj & Hq & Hcat)].
  - by rewrite Hq, Hcat.
  - destruct (first_chain (elems m)) as [|c next] eqn:E; [done|].
    rewrite Hcat in Hfuel |- *. rewrite <- app_comm_cons in Hfuel |- *.
    destruct (map_next_spec m j [] c next Hinv Hj)
      as (q & Hnext & [[-> Hnil]|(j' & pre' & Hq' & Hj' & Heq)]).
    + mstep (by eapply (map_get_cell m j [])). mstep (exact Hnext).
      mstep (by apply ls_rest_nil). by rewrite Hnil.
    + mstep (by eapply (map_get_cell m j [])). mstep (exact Hnext).
      rewrite <- Heq in Hfuel |- *.
      erewrite bind_Ret; last first.
      { apply (ls_rest_eq m Hinv _ q j' pre'); [done|done|].
        simpl in Hfuel. lia. }
      done.
Qed.

Lemma cmd_ls_eq m fuel :
  map_inv m → (Z.to_nat (size m) ≤ fuel)%nat →
  cmd_ls fuel (Some m)
  = (Printf "    m = {" [] :: ls_events (concat (elems m)) ++ [Printf "}\n" []],
     Running (Some m)).
Proof.
  intros Hinv Hfuel. unfold cmd_ls.
  rewrite ls_entries_eq; [done..|]. pose proof (inv_size m Hinv). lia.
Qed.

(** X14. The [ls] command (also [dump], [print]) on a map under the
    invariant returns after printing, between the braces, every entry of
    the map once, key and stored value, bucket after bucket, the first bare
    and the others after a comma; the map is unchanged. *)
Theorem ls_prints_every_entry m fuel valp :
  map_inv m → (Z.to_nat (size m) ≤ fuel)%nat →
  let out := Printf "    m = {" []
             :: ls_events (concat (elems m)) ++ [Printf "}\n" []] in
  run_cmd fuel valp (lit "ls") (Some m) = (out, Running (Some m))
  ∧ run_cmd fuel valp (lit "dump") (Some m) = (out, Running (Some m))
  ∧ run_cmd fuel valp (lit "print") (Some m) = (out, Running (Some m)).
Proof.
  intros Hinv Hfuel out. pose proof (cmd_ls_eq m fuel Hinv Hfuel) as Hls.
  by repeat split.
Qed.

Lemma ls_prints_every_entry_witness :
  let m := Map [[Cell ["e"%byte] 5; Cell ["a"%byte] 1]; []; [];
                [Cell ["b"%byte] 2]] 4 3 in
  (map_inv m ∧ (Z.to_nat (size m) ≤ 3)%nat)
  ∧ let out := Printf "    m = {" []
               :: ls_events (concat (elems m)) ++ [Printf "}\n" []] in
    run_cmd 3 0 (lit "ls") (Some m) = (out, Running (Some m))
    ∧ run_cmd 3 0 (lit "dump") (Some m) = (out, Running (Some m))
    ∧ run_cmd 3 0 (lit "print") (Some m) = (out, Running (Some m)).
Proof.
  intros m.
  assert (map_inv m) as Hinv by check_inv.
  assert (Z.to_nat (size m) ≤ 3)%nat as Hfuel by (vm_compute; lia).
  split; [by split|].
  exact (ls_prints_every_entry m 3%nat 0 Hinv Hfuel).
Defined.

(** ** The commands on a map *)

Lemma cmd_get_eq m k :
  map_shape m →
  cmd_get k (Some m)
  = match get_loop k (bucket m k) with
    | Some v => ([Printf "    m[%s] = %s\n" [AStr k; AVal v]], Running (Some m))
    | None => ([KEY_NOT_FOUND], Running (Some m))
    end.
Proof.
  intros Hs. unfold cmd_get. rewrite map_contains_eq by done. simpl.
  rewrite contains_get_loop.
  destruct (get_loop k (bucket m k)) as [v|] eqn:E; simpl; [|done].
  by rewrite map_get_eq, E.
Qed.

Lemma cmd_remove_absent m k :
  map_shape m → get_loop k (bucket m k) = None →
  cmd_remove k (Some m) = ([KEY_NOT_FOUND], Running (Some m)).
Proof.
  intros Hs E. unfold cmd_remove. rewrite map_contains_eq by done. simpl.
  by rewrite contains_get_loop, E.
Qed.

Lemma cmd_remove_present m k v :
  map_inv m → get_loop k (bucket m k) = Some v →
  ∃ m', map_remove k m = Ret v m' ∧ map_inv m'
    ∧ cmd_remove k (Some m)
      = ([Printf "    # m[%s] = %s\n" [AStr k; AVal v]; Free v],
         Running (Some m')).
Proof.
  intros Hinv E. pose proof (inv_shape m Hinv) as Hs.
  destruct (map_remove_spec m k v Hinv E) as (m' & c & Hrem & Hinv' & _).
  exists m'. split; [done|]. split; [done|].
  unfold cmd_remove. rewrite map_contains_eq by done. simpl.
  rewrite contains_get_loop, E. simpl. by rewrite Hrem.
Qed.

Lemma strtok_get X : strtok (lit "get " ++ X) = (Some (lit "get"), X).
Proof. reflexivity. Qed.

Lemma strtok_set X : strtok (lit "set " ++ X) = (Some (lit "set"), X).
Proof. reflexivity. Qed.

Lemma strtok_remove X :
  strtok (lit "remove " ++ X) = (Some (lit "remove"), X).
Proof. reflexivity. Qed.

Lemma run_cmd_get fuel valp k st :
  k ≠ [] → Forall (λ c, is_space c = false ∧ is_nul c = false) k →
  run_cmd fuel valp (lit "get " ++ k) st = cmd_get k st.
Proof.
  intros Hne Hk. unfold run_cmd. rewrite strtok_get.
  change (streq (lit "get") (lit "help")) with false.
  change (streq (lit "get") (lit "exit")) with false.
  change (streq (lit "get") (lit "quit")) with false.
  change (streq (lit "get") (lit "q")) with false.
  change (streq (lit "get") (lit "init")) with false.
  change (streq (lit "get") (lit "size")) with false.
  change (streq (lit "get") (lit "ls")) with false.
  change (streq (lit "get") (lit "dump")) with false.
  change (streq (lit "get") (lit "print")) with false.
  change (streq (lit "get") (lit "contains")) with false.
  change (streq (lit "get") (lit "set")) with false.
  change (streq (lit "get") (lit "get")) with true.
  cbn [orb]. by rewrite parse_s_token.
Qed.

Lemma run_cmd_remove fuel valp k st :
  k ≠ [] → Forall (λ c, is_space c = false ∧ is_nul c = false) k →
  run_cmd fuel valp (lit "remove " ++ k) st = cmd_remove k st.
Proof.
  intros Hne Hk. unfold run_cmd. rewrite strtok_remove.
  change (streq (lit "remove") (lit "help")) with false.
  change (streq (lit "remove") (lit "exit")) with false.
  change (streq (lit "remove") (lit "quit")) with false.
  change (streq (lit "remove") (lit "q")) with false.
  change (streq (lit "remove") (lit "init")) with false.
  change (streq (lit "remove") (lit "size")) with false.
  change (streq (lit "remove") (lit "ls")) with false.
  change (streq (lit "remove") (lit "dump")) with false.
  change (streq (lit "remove") (lit "print")) with false.
  change (streq (lit "remove") (lit "contains")) with false.
  change (streq (lit "remove") (lit "set")) with false.
  change (streq (lit "remove") (lit "get")) with false.
  change (streq (lit "remove") (lit "remove")) with true.
  cbn [orb]. by rewrite parse_s_token.
Qed.

Lemma run_cmd_set fuel valp k v st :
  k ≠ [] → Forall (λ c, is_space c = false ∧ is_nul c = false) k →
  v ≠ [] → Forall (λ c, is_space c = false ∧ is_nul c = false) v →
  run_cmd fuel valp (lit "set " ++ k ++ " "%byte :: v) st
  = cmd_set k v valp st.
Proof.
  intros Hne Hk Hnev Hv. unfold run_cmd. rewrite strtok_set.
  change (streq (lit "set") (lit "help")) with false.
  change (streq (lit "set") (lit "exit")) with false.
  change (streq (lit "set") (lit "quit")) with false.
  change (streq (lit "set") (lit "q")) with false.
  change (streq (lit "set") (lit "init")) with false.
  change (streq (lit "set") (lit "size")) with false.
  change (streq (lit "set") (lit "ls")) with false.
  change (streq (lit "set") (lit "dump")) with false.
  change (streq (lit "set") (lit "print")) with false.
  change (streq (lit "set") (lit "contains")) with false.
  change (streq (lit "set") (lit "set")) with true.
  cbn [orb]. by rewrite parse_ss_tokens.
Qed.

(** X15. Through the shell, on a map under the invariant, for a key that
    is present or when a due doubling of the capacity stays within [int]:
    [set k v] followed by [get k] prints the value handle that [set]
    stored, the address [strdup] gave for [v]. *)
Theorem shell_set_then_get m k v fuel valp valp' :
  map_inv m → can_set m k →
  k ≠ [] → Forall (λ c, is_space c = false ∧ is_nul c = false) k →
  v ≠ [] → Forall (λ c, is_space c = false ∧ is_nul c = false) v →
  ∃ m',
    run_cmd fuel valp (lit "set " ++ k ++ " "%byte :: v) (Some m)
    = ([Printf "    m[%s] = %s\n" [AStr k; AVal valp]], Running (Some m'))
    ∧ run_cmd fuel valp' (lit "get " ++ k) (Some m')
      = ([Printf "    m[%s] = %s\n" [AStr k; AVal valp]], Running (Some m')).
Proof.
  intros Hinv Hcan Hne Hk Hnev Hv.
  destruct (map_set_spec_gen m k valp Hinv Hcan)
    as (m' & Hset & Hinv' & Hget & _).
  exists m'. rewrite run_cmd_set, run_cmd_get by done. split.
  - unfold cmd_set. by rewrite Hset.
  - rewrite cmd_get_eq by by apply inv_shape. by rewrite Hget.
Qed.

Lemma shell_set_then_get_witness :
  let m := Map [[Cell ["a"%byte] 1]] 1 1 in
  let k := lit "key" in
  let v := lit "val" in
  (map_inv m ∧ can_set m k
   ∧ k ≠ [] ∧ Forall (λ c, is_space c = false ∧ is_nul c = false) k
   ∧ v ≠ [] ∧ Forall (λ c, is_space c = false ∧ is_nul c = false) v)
  ∧ ∃ m',
      run_cmd 0 77 (lit "set " ++ k ++ " "%byte :: v) (Some m)
      = ([Printf "    m[%s] = %s\n" [AStr k; AVal 77]], Running (Some m'))
      ∧ run_cmd 0 0 (lit "get " ++ k) (Some m')
        = ([Printf "    m[%s] = %s\n" [AStr k; AVal 77]], Running (Some m')).
Proof.
  intros m k v.
  assert (map_inv m) as Hinv by check_inv.
  assert (can_set m k) as Hcan
    by (intros _; apply can_grow_small; vm_compute; reflexivity).
  assert (k ≠ []) as Hne by discriminate.
  assert (Forall (λ c, is_space c = false ∧ is_nul c = false) k) as Hk
    by (repeat constructor).
  assert (v ≠ []) as Hnev by discriminate.
  assert (Forall (λ c, is_space c = false ∧ is_nul c = false) v) as Hv
    by (repeat constructor).
  split; [by repeat (split; [assumption|])|].
  exact (shell_set_then_get m k v 0%nat 77 0 Hinv Hcan Hne Hk Hnev Hv).
Defined.

(** X16. Through the shell, [get k] and [remove k] of a key that is not
    in the map print the key-not-found error and return with the map
    unchanged: [map_get] and [map_remove] are not called. *)
Theorem shell_absent_key m k fuel valp :
  map_inv m → map_contains k m = Ret false m →
  k ≠ [] → Forall (λ c, is_space c = false ∧ is_nul c = false) k →
  run_cmd fuel valp (lit "get " ++ k) (Some m)
  = ([Printf "    error; key not found\n" []], Running (Some m))
  ∧ run_cmd fuel valp (lit "remove " ++ k) (Some m)
    = ([Printf "    error; key not found\n" []], Running (Some m)).
Proof.
  intros Hinv Hout Hne Hk. pose proof (inv_shape m Hinv) as Hs.
  apply map_contains_false in Hout; [|done].
  rewrite run_cmd_get, run_cmd_remove by done.
  rewrite cmd_get_eq, Hout by done. split; [done|].
  by apply cmd_remove_absent.
Qed.

Lemma shell_absent_key_witness :
  let m := Map [[Cell ["a"%byte] 1]] 1 1 in
  let k := lit "key" in
  (map_inv m ∧ map_contains k m = Ret false m
   ∧ k ≠ [] ∧ Forall (λ c, is_space c = false ∧ is_nul c = false) k)
  ∧ run_cmd 0 0 (lit "get " ++ k) (Some m)
    = ([Printf "    error; key not found\n" []], Running (Some m))
  ∧ run_cmd 0 0 (lit "remove " ++ k) (Some m)
    = ([Printf "    error; key not found\n" []], Running (Some m)).
Proof.
  intros m k.
  assert (map_inv m) as Hinv by check_inv.
  assert (map_contains k m = Ret false m) as Hout by reflexivity.
  assert (k ≠ []) as Hne by discriminate.
  assert (Forall (λ c, is_space c = false ∧ is_nul c = false) k) as Hk
    by (repeat constructor).
  split; [by repeat (split; [assumption|])|].
  exact (shell_absent_key m k 0%nat 0 Hinv Hout Hne Hk).
Defined.

(** X17. Through the shell, [remove k] of a key that is in the map prints
    the handle stored for it, frees that handle, and leaves a map in which
    a following [get k] finds no key. *)
Theorem shell_remove_frees m k fuel valp :
  map_inv m → map_contains k m = Ret true m →
  k ≠ [] → Forall (λ c, is_space c = false ∧ is_nul c = false) k →
  ∃ v m', map_get k m = Ret v m
    ∧ run_cmd fuel valp (lit "remove " ++ k) (Some m)
      = ([Printf "    # m[%s] = %s\n" [AStr k; AVal v]; Free v],
         Running (Some m'))
    ∧ run_cmd fuel valp (lit "get " ++ k) (Some m')
      = ([Printf "    error; key not found\n" []], Running (Some m')).
Proof.
  intros Hinv Hin Hne Hk. pose proof (inv_shape m Hinv) as Hs.
  apply map_contains_true in Hin as [v Hget]; [|done].
  destruct (map_remove_spec m k v Hinv Hget)
    as (m' & c & Hrem & Hinv' & _ & _ & Habs & _).
  destruct (cmd_remove_present m k v Hinv Hget) as (m'' & Hrem' & _ & Hcmd).
  assert (m'' = m') as -> by congruence.
  exists v, m'. split; [by apply map_get_found|].
  rewrite run_cmd_get, run_cmd_remove by done. split; [done|].
  rewrite cmd_get_eq by by apply inv_shape. by rewrite Habs.
Qed.

Lemma shell_remove_frees_witness :
  let m := Map [[Cell ["a"%byte] 1]] 1 1 in
  let k := lit "a" in
  (map_inv m ∧ map_contains k m = Ret true m
   ∧ k ≠ [] ∧ Forall (λ c, is_space c = false ∧ is_nul c = false) k)
  ∧ ∃ v m', map_get k m = Ret v m
      ∧ run_cmd 0 0 (lit "remove " ++ k) (Some m)
        = ([Printf "    # m[%s] = %s\n" [AStr k; AVal v]; Free v],
           Running (Some m'))
      ∧ run_cmd 0 0 (lit "get " ++ k) (Some m')
        = ([Printf "    error; key not found\n" []], Running (Some m')).
Proof.
  intros m k.
  assert (map_inv m) as Hinv by check_inv.
  assert (map_contains k m = Ret true m) as Hin by reflexivity.
  assert (k ≠ []) as Hne by discriminate.
  assert (Forall (λ c, is_space c = false ∧ is_nul c = false) k) as Hk
    by (repeat constructor).
  split; [by repeat (split; [assumption|])|].
  exact (shell_remove_frees m k 0%nat 0 Hinv Hin Hne Hk).
Defined.

(** ** [run_cmd] never fails *)













(** ** [main] *)




Lemma step_bounds m m' :
  map_inv m → step m m' →
  size m' ≤ size m + 1 ∧ capacity m' ≤ Z.max (capacity m) (2 * size m).
Proof.
  intros Hinv [k v Hset|k v Hrem]; pose proof (inv_shape m Hinv) as Hs.
  - destruct (get_loop k (bucket m k)) as [v0|] eqn:E.
    + destruct (map_set_present m k v Hinv)
        as (m1 & Hset1 & _ & Hcap & Hsz & _).
      { by rewrite E. }
      assert (m' = m1) as -> by congruence. lia.
    + pose proof (map_set_Ret_can_grow m k v m' Hs E Hset) as Hov.
      destruct (map_set_absent m k v Hinv Hov E)
        as (Hset1 & _ & Hsz & Hcap & _).
      assert (m' = linked (extended m) k v) as -> by congruence.
      rewrite Hsz, Hcap. destruct (decide _); lia.
  - destruct (get_loop k (bucket m k)) as [v0|] eqn:E.
    + destruct (map_remove_spec m k v0 Hinv E)
        as (m1 & c & Hrem1 & _ & Hcap & Hsz & _).
      assert (m' = m1) as -> by congruence. lia.
    + rewrite map_remove_eq in Hrem by done.
      by rewrite (proj2 (remove_loop_None k _) E) in Hrem.
Qed.







(** ** Iteration after [map_set] *)

Lemma all_keys_table m : all_keys m = concat (key_table m).
Proof.
  unfold all_keys, all_cells, key_table.
  induction (elems m) as [|l a IH]; [done|].
  simpl. by rewrite fmap_app, IH.
Qed.

(** X20. On a map under the invariant: [map_set] on a key that is present
    leaves the iteration as it was, the same keys in the same order. On a
    key that is not present, when a due doubling of the capacity stays
    within [int], it adds that key, once, to the keys the iteration meets;
    their order may change, since the map may have grown. *)
Theorem set_and_iteration m k v fuel :
  map_inv m → can_set m k → (Z.to_nat (size m) < fuel)%nat →
  ∃ m' ks ks',
    map_set k v m = Ret tt m'
    ∧ walk fuel m = Ret (Some ks) m
    ∧ walk fuel m' = Ret (Some ks') m'
    ∧ (map_contains k m = Ret true m → ks' = ks)
    ∧ (map_contains k m = Ret false m → ks' ≡ₚ strcpy k :: ks).
Proof.
  intros Hinv Hcan Hfuel. pose proof (inv_shape m Hinv) as Hs.
  pose proof (inv_size m Hinv) as Hsz.
  destruct (map_set_spec_gen m k v Hinv Hcan) as (m' & Hset & Hinv' & _).
  pose proof (inv_size m' Hinv') as Hsz'.
  assert (step m m') as Hstep by by eapply step_set.
  destruct (step_bounds m m' Hinv Hstep) as [Hle _].
  exists m', (all_keys m), (all_keys m'). split; [done|].
  split; [apply walk_eq; [done|lia]|].
  split; [apply walk_eq; [done|lia]|]. split.
  - intros Hin. apply map_contains_true in Hin; [|done].
    destruct (map_set_present m k v Hinv Hin) as (m1 & Hset1 & _ & _ & _ & Hk & _).
    assert (m' = m1) as -> by congruence.
    by rewrite !all_keys_table, Hk.
  - intros Hout. pose proof (Hcan Hout) as Hov.
    apply map_contains_false in Hout; [|done].
    destruct (map_set_absent m k v Hinv Hov Hout) as (Hset1 & _).
    assert (m' = linked (extended m) k v) as -> by congruence.
    unfold all_keys.
    rewrite linked_cells by by apply extended_shape.
    by rewrite extended_cells.
Qed.

Lemma set_and_iteration_witness :
  let m := Map [[Cell ["a"%byte] 1]; [Cell ["b"%byte] 2]] 2 2 in
  let k := ["c"%byte] in
  (map_inv m ∧ can_set m k ∧ (Z.to_nat (size m) < 4)%nat)
  ∧ ∃ m' ks ks',
      map_set k 3 m = Ret tt m'
      ∧ walk 4 m = Ret (Some ks) m
      ∧ walk 4 m' = Ret (Some ks') m'
      ∧ (map_contains k m = Ret true m → ks' = ks)
      ∧ (map_contains k m = Ret false m → ks' ≡ₚ strcpy k :: ks).
Proof.
  intros m k.
  assert (map_inv m) as Hinv by check_inv.
  assert (can_set m k) as Hcan
    by (intros _; apply can_grow_small; vm_compute; reflexivity).
  assert (Z.to_nat (size m) < 4)%nat as Hfuel by (vm_compute; lia).
  split; [by repeat (split; [assumption|])|].
  exact (set_and_iteration m k 3 4%nat Hinv Hcan Hfuel).
Defined.

(** * A map at the limit of [int] *)

Lemma key_of_stored i : strcpy (key_of i) = key_of i.
Proof.
  unfold key_of. induction (S i) as [|n IH]; [done|].
  simpl. by rewrite IH.
Qed.

Lemma key_of_inj i j : key_of i = key_of j → i = j.
Proof.
  unfold key_of. intros H.
  apply (f_equal length) in H. rewrite !length_replicate in H. lia.
Qed.

Lemma filled_spec n :
  Z.of_nat n ≤ 2 ^ 30 →
  reachable (filled n)
  ∧ size (filled n) = Z.of_nat n
  ∧ ∀ k, k ∈ all_keys (filled n) → ∃ i, (i < n)%nat ∧ k = key_of i.
Proof.
  induction n as [|n IH]; intros Hn.
  { split; [apply rtc_refl|]. split; [done|].
    intros k Hk. by apply elem_of_nil in Hk. }
  destruct IH as (Hreach & Hsz & Hkeys); [lia|].
  pose proof (reachable_inv _ Hreach) as Hinv.
  pose proof (inv_shape _ Hinv) as Hs.
  assert (get_loop (key_of n) (bucket (filled n) (key_of n)) = None) as Habs.
  { apply lookup_absent; [done|]. rewrite key_of_stored.
    intros (i & Hi & Heq%key_of_inj)%Hkeys. lia. }
  assert (can_grow (filled n)) as Hov.
  { intros Hfull. rewrite int_max_eq. lia. }
  destruct (map_set_absent (filled n) (key_of n) 0 Hinv Hov Habs)
    as (Hset & _ & Hsz' & _).
  cbn [filled]. rewrite Hset.
  split; [|split].
  - eapply rtc_r; [exact Hreach|]. by eapply step_set.
  - rewrite Hsz', Hsz. lia.
  - intros k. unfold all_keys.
    rewrite linked_cells by by apply extended_shape.
    rewrite extended_cells by done. rewrite fmap_cons.
    intros [->|Hk]%elem_of_cons.
    + exists n. split; [lia|]. simpl. apply key_of_stored.
    + destruct (Hkeys k Hk) as (i & ? & ?). exists i. split; [lia|done].
Qed.

(** The map with 2^30 entries: reachable, full, and at the largest capacity
    an [int] can hold. *)
Lemma full_map_spec :
  reachable full_map
  ∧ size full_map = 2 ^ 30
  ∧ capacity full_map = 2 ^ 30
  ∧ map_contains fresh_key full_map = Ret false full_map.
Proof.
  unfold full_map.
  destruct (filled_spec (Z.to_nat (2 ^ 30))) as (Hreach & Hsz & Hkeys); [lia|].
  generalize dependent (filled (Z.to_nat (2 ^ 30))). intros m Hreach Hsz Hkeys.
  pose proof (reachable_inv _ Hreach) as Hinv.
  pose proof (inv_shape _ Hinv) as Hs.
  rewrite Z2Nat.id in Hsz by lia.
  split; [done|]. split; [done|]. split.
  - destruct (inv_pow2 m Hinv) as [e He].
    pose proof (inv_load m Hinv) as Hload. pose proof (shape_int m Hs) as Hint.
    rewrite int_max_eq in Hint. rewrite He in *.
    assert (Z.of_nat e = 30) as ->; [|done].
    assert (30 ≤ Z.of_nat e).
    { apply (Z.pow_le_mono_r_iff 2); lia. }
    assert (Z.of_nat e < 31).
    { apply (Z.pow_lt_mono_r_iff 2); lia. }
    lia.
  - apply map_contains_false; [done|]. apply lookup_absent; [done|].
    intros (i & _ & Heq)%Hkeys. discriminate Heq.
Qed.

Lemma full_map_overflow v :
  extend_if_necessary full_map = Undef
  ∧ map_set fresh_key v full_map = Undef.
Proof.
  destruct full_map_spec as (Hreach & Hsz & Hcap & Hout).
  pose proof (reachable_inv _ Hreach) as Hinv.
  pose proof (inv_shape _ Hinv) as Hs.
  assert (INT_MAX < capacity full_map * 2) as Hov.
  { rewrite Hcap, int_max_eq. lia. }
  split.
  - apply extend_overflow; [congruence|lia].
  - apply map_set_overflow; [done| |congruence|done].
    by apply map_contains_false.
Qed.

(** C1 as stated fails on a full map of 2^30 entries, which completed calls
    reach from [map_create]: [map_set] of a new key does not return, the
    doubling of the capacity overflowing [int]. *)
Lemma set_then_get_counterexample :
  reachable full_map
  ∧ map_set fresh_key 0 full_map = Undef
  ∧ ¬ ∃ m', map_set fresh_key 0 full_map = Ret tt m'
        ∧ map_contains fresh_key m' = Ret true m'
        ∧ map_get fresh_key m' = Ret 0 m'.
Proof.
  destruct full_map_spec as (Hreach & _).
  destruct (full_map_overflow 0) as [_ Hset].
  split; [exact Hreach|]. split; [exact Hset|].
  intros (m' & Hret & _). rewrite Hset in Hret. discriminate Hret.
Qed.

(** C2 as stated fails on the same map: its size equals its capacity and
    the key is new, yet the table does not grow, [extend_if_necessary]
    overflowing [int] before any entry is moved. *)
Lemma set_new_key_grows_counterexample :
  reachable full_map
  ∧ map_contains fresh_key full_map = Ret false full_map
  ∧ size full_map = capacity full_map
  ∧ extend_if_necessary full_map = Undef
  ∧ ¬ ∃ m', map_set fresh_key 0 full_map = Ret tt m'
        ∧ capacity m' = capacity full_map * 2.
Proof.
  destruct full_map_spec as (Hreach & Hsz & Hcap & Hout).
  destruct (full_map_overflow 0) as [Hext Hset].
  split; [exact Hreach|]. split; [exact Hout|].
  split; [congruence|]. split; [exact Hext|].
  intros (m' & Hret & _). rewrite Hset in Hret. discriminate Hret.
Qed.
